(** * MeasureRecordBatchWriter: fan-out of measurement samples to N writers

    A shallow embedding of [src/stim/io/measure_record_batch_writer.h].

    The two routines defined in the header, [batch_write_bit] and
    [batch_write_bytes], only read memory (a bit range, a bit table) and call
    methods of the writer objects held in [writers].  Every method of a
    writer returns [void], so the observable behaviour of a routine is the
    sequence of method calls it issues, in program order, followed by the
    effect of those calls on the writer objects and on the streams they are
    bound to.  The embedding keeps the two apart:

    - [batch_write_bit_calls] / [batch_write_bytes_calls] give the calls a
      routine issues (or [None] when it reads outside a buffer);
    - [perform] runs a sequence of calls against the object, for any
      implementation of the writer interface. *)

From Stdlib Require Import Strings.Byte.
From stdpp Require Import base list option numbers.

Local Open Scope nat_scope.

(** ** Bytes and bits *)

Abbreviation byte := Byte.byte.

(** Bit [i] of a byte, least significant bit first (bits beyond 7 read as
    [false]). *)
Definition get_bit (b : byte) (i : nat) : bool :=
  let '(b0, (b1, (b2, (b3, (b4, (b5, (b6, b7))))))) := Byte.to_bits b in
  match i with
  | 0 => b0 | 1 => b1 | 2 => b2 | 3 => b3
  | 4 => b4 | 5 => b5 | 6 => b6 | 7 => b7
  | _ => false
  end.

(** The byte whose bit [i] is [f i]. *)
Definition byte_of_fun (f : nat -> bool) : byte :=
  Byte.of_bits (f 0, (f 1, (f 2, (f 3, (f 4, (f 5, (f 6, f 7))))))).

(** The eight bits of a byte, in the order in which a writer consumes them. *)
Definition bits_of_byte (b : byte) : list bool :=
  (get_bit b) <$> seq 0 8.

Definition bits_of_bytes (bs : list byte) : list bool :=
  bs ≫= bits_of_byte.

(** ** size_t arithmetic

    Sizes are naturals; a product computed in [size_t] wraps modulo 2^64.
    Pointer arithmetic does not wrap: a pointer is an offset into a buffer,
    and dereferencing outside the buffer is an error. *)

Definition SIZE_T_MODULUS : N := 18446744073709551616%N.

Definition size_t_wrap (x : nat) : nat :=
  N.to_nat (N.of_nat x mod SIZE_T_MODULUS)%N.

Definition size_t_mul (a b : nat) : nat := size_t_wrap (a * b).

Definition fits_size_t (x : nat) : Prop := (N.of_nat x < SIZE_T_MODULUS)%N.

(** ** Memory reads *)

(** The [len] bytes of [buf] from offset [off] on. *)
Definition slice (buf : list byte) (off len : nat) : list byte :=
  take len (drop off buf).

(** [read_range buf p n] is the content of the pointer range [{p, n}] into
    the buffer [buf] (offsets [p] up to, not including, [n]).  An empty range
    dereferences nothing; a range that is not empty has to lie inside the
    buffer. *)
Definition read_range (buf : list byte) (p n : nat) : option (list byte) :=
  if decide (n <= p) then Some []
  else if decide (n <= length buf) then Some (slice buf p (n - p))
  else None.

(** ** simd_bits_range_ref *)

(** Modelled from the spec: [simd_bits_range_ref<W>] is declared in
    stim/mem, which is not part of the sources at hand.  A range is the list
    of its bytes ([u8]). *)
Abbreviation simd_bits_range_ref := (list byte) (only parsing).

(** Modelled from the spec: [bits[k]] is bit [k mod 8] of byte [k / 8], the
    packing convention the specification gives for the bit table ("bit i of
    byte b encodes the sample for writer 8b+i"); there is no bit outside the
    range. *)
Definition bits_get (bits : simd_bits_range_ref) (k : nat) : option bool :=
  b ← bits !! (k / 8); Some (get_bit b (k mod 8)).

(** The bit at offset [k] of a range that holds it. *)
Definition bit_at (bits : simd_bits_range_ref) (k : nat) : bool :=
  default false (bits_get bits k).

(** ** simd_bit_table *)

(** Modelled from the spec: [simd_bit_table<W>] is declared in stim/mem,
    which is not part of the sources at hand.  The table is a rectangular
    boolean matrix stored major row after major row; both extents are padded
    to whole 64-bit words (the template parameter [W] only changes the
    padding granularity, always a multiple of 64, and is left out). *)
Record simd_bit_table := {
  num_major_u64_padded : nat;   (* major extent, in units of 64 *)
  num_minor_u64_padded : nat;   (* minor extent, in units of 64 *)
  data : list byte;             (* raw buffer, [data.u8] *)
}.

Definition num_major_bits_padded (t : simd_bit_table) : nat :=
  64 * num_major_u64_padded t.

Definition num_minor_bits_padded (t : simd_bit_table) : nat :=
  64 * num_minor_u64_padded t.

(** Modelled from the spec: the "padded per-major-unit byte stride", the
    distance in bytes between two consecutive major indices. *)
Definition num_minor_u8_padded (t : simd_bit_table) : nat :=
  8 * num_minor_u64_padded t.

(** Modelled from the spec: the buffer holds exactly the padded matrix, and
    its size is a [size_t]. *)
Definition table_wf (t : simd_bit_table) : Prop :=
  length (data t) = num_major_bits_padded t * num_minor_u8_padded t
  /\ fits_size_t (length (data t)).

(** Modelled from the spec: the logical content, that is the bit at major
    index [maj] and minor index [min] ([false] outside the buffer). *)
Definition table_bit (t : simd_bit_table) (maj min : nat) : bool :=
  match data t !! (maj * num_minor_u8_padded t + min / 8) with
  | Some b => get_bit b (min mod 8)
  | None => false
  end.

(** Modelled from the spec: [t[maj].u8], the offset of major row [maj] in
    the raw buffer. *)
Definition row_u8 (t : simd_bit_table) (maj : nat) : nat :=
  maj * num_minor_u8_padded t.

(** Modelled from the spec: [t.transposed()], "a writer-major relayout
    preserving logical content": the two dimensions are exchanged. *)
Definition transposed (t : simd_bit_table) : simd_bit_table :=
  {| num_major_u64_padded := num_minor_u64_padded t;
     num_minor_u64_padded := num_major_u64_padded t;
     data :=
       r ← seq 0 (num_minor_bits_padded t);
       c ← seq 0 (8 * num_major_u64_padded t);
       [byte_of_fun (fun i => table_bit t (8 * c + i) r)] |}.

(** The eight bytes at offset [8k + stride*w] of the raw buffer. *)
Definition packed_group (t : simd_bit_table) (k w : nat) : list byte :=
  slice (data t) (8 * k + num_minor_u8_padded t * w) 8.

(** The first [num_major_u64 * 8] bytes of row [k] of the transposed table. *)
Definition transposed_run (t : simd_bit_table) (num_major_u64 k : nat)
  : list byte :=
  slice (data (transposed t)) (row_u8 (transposed t) k) (num_major_u64 * 8).

(** ** The writer interface *)

(** Modelled from the spec: [MeasureRecordWriter] is an abstract class of the
    repository, declared in stim/io/measure_record_writer.h (not part of the
    sources at hand).  The header under study calls [write_bit] and
    [write_bytes]; the specification adds [begin_result_type] and the
    finalisation.  A call is a method together with its arguments. *)
Inductive call :=
  | BeginResultType (result_type : byte)
  | WriteBit (b : bool)
  | WriteBytes (bytes : list byte)
  | WriteEnd.

(** A call addressed to the writer at some offset of [writers]. *)
Abbreviation dispatch := (nat * call)%type (only parsing).

(** Modelled from the spec: an implementation of the interface.  Each
    writer "owns its own internal framing": a method takes the state of the
    writer object and gives its next state and the bytes the writer puts on
    the stream it is bound to during that call. *)
Class MeasureRecordWriter (W : Type) := {
  writer_begin_result_type : byte -> W -> W * list byte;
  writer_write_bit : bool -> W -> W * list byte;
  writer_write_bytes : list byte -> W -> W * list byte;
  writer_write_end : W -> W * list byte;
}.

Definition handle {W} `{MeasureRecordWriter W} (c : call) (w : W) : W * list byte :=
  match c with
  | BeginResultType t => writer_begin_result_type t w
  | WriteBit b => writer_write_bit b w
  | WriteBytes bs => writer_write_bytes bs w
  | WriteEnd => writer_write_end w
  end.

(** The calls addressed to writer [k], in order. *)
Definition calls_of (k : nat) (cs : list dispatch) : list call :=
  snd <$> filter (fun d => fst d = k) cs.

(** [fan_out n g]: each writer [k = 0 .. n-1] in turn receives the calls
    [g k]. *)
Definition fan_out (n : nat) (g : nat -> list call) : list dispatch :=
  seq 0 n ≫= (fun k => pair k <$> g k).

(** Modelled from the spec: the sample bits a call hands to a writer, one
    for [write_bit] and eight per byte for [write_bytes] (the specification
    counts [num_major_u64*8] bytes as [num_major_u64*64] bits). *)
Definition call_bits (c : call) : list bool :=
  match c with
  | WriteBit b => [b]
  | WriteBytes bs => bits_of_bytes bs
  | _ => []
  end.

(** The samples recorded by a writer that received the calls [cs]. *)
Definition recorded_bits (cs : list call) : list bool := cs ≫= call_bits.

Definition sample_count (cs : list call) : nat := length (recorded_bits cs).

(** The free implementation: the state of a writer is the list of the calls
    it has received; nothing is put on the stream. *)
#[export] Instance LogWriter : MeasureRecordWriter (list call) := {|
  writer_begin_result_type t w := (w ++ [BeginResultType t], []);
  writer_write_bit b w := (w ++ [WriteBit b], []);
  writer_write_bytes bs w := (w ++ [WriteBytes bs], []);
  writer_write_end w := (w ++ [WriteEnd], []);
|}.

(** ** Loops *)

(** [for (size_t k = k0; k < k0 + n; k++) body(k)]: the calls issued by [n]
    iterations starting at [k0]. *)
Fixpoint for_loop (n k0 : nat) (body : nat -> option (list dispatch))
  : option (list dispatch) :=
  match n with
  | 0 => Some []
  | S n' =>
      cs ← body k0;
      rest ← for_loop n' (S k0) body;
      Some (cs ++ rest)
  end.

Section BatchWriter.

(** [SampleFormat] is an enumeration declared outside the sources at hand;
    the header only compares [output_format] with [SAMPLE_FORMAT_PTB64]. *)
Context {SampleFormat : Type} `{EqDecision SampleFormat}.
Variable SAMPLE_FORMAT_PTB64 : SampleFormat.

(** *** Calls issued by [batch_write_bit] *)

(** The packed branch: a range-for over [writers] with a running pointer
    [p] into [bits.u8]; [k] is the offset of the writer at hand. *)
Fixpoint batch_write_bit_ptb64 (u8 : list byte) (p k n : nat)
  : option (list dispatch) :=
  match n with
  | 0 => Some []
  | S n' =>
      let q := p + 8 in
      bs ← read_range u8 p q;
      rest ← batch_write_bit_ptb64 u8 q (S k) n';
      Some ((k, WriteBytes bs) :: rest)
  end.

(** The other branch: [writers[k]->write_bit(bits[k])] for each [k]. *)
Definition batch_write_bit_serial (bits : simd_bits_range_ref) (n : nat)
  : option (list dispatch) :=
  for_loop n 0 (fun k => b ← bits_get bits k; Some [(k, WriteBit b)]).

(** [n] is [writers.size()]. *)
Definition batch_write_bit_calls (output_format : SampleFormat) (n : nat)
    (bits : simd_bits_range_ref) : option (list dispatch) :=
  if decide (output_format = SAMPLE_FORMAT_PTB64) then
    batch_write_bit_ptb64 bits 0 0 n
  else
    batch_write_bit_serial bits n.

(** *** Calls issued by [batch_write_bytes] *)

Definition batch_write_bytes_ptb64 (table : simd_bit_table)
    (num_major_u64 n : nat) : option (list dispatch) :=
  for_loop n 0 (fun k =>
    for_loop num_major_u64 0 (fun w =>
      let p := size_t_mul k 8 + size_t_mul (num_minor_u8_padded table) w in
      bs ← read_range (data table) p (p + 8);
      Some [(k, WriteBytes bs)])).

Definition batch_write_bytes_serial (table : simd_bit_table)
    (num_major_u64 n : nat) : option (list dispatch) :=
  let transposed := transposed table in
  for_loop n 0 (fun k =>
    let p := row_u8 transposed k in
    bs ← read_range (data transposed) p (p + size_t_mul num_major_u64 8);
    Some [(k, WriteBytes bs)]).

Definition batch_write_bytes_calls (output_format : SampleFormat) (n : nat)
    (table : simd_bit_table) (num_major_u64 : nat) : option (list dispatch) :=
  if decide (output_format = SAMPLE_FORMAT_PTB64) then
    batch_write_bytes_ptb64 table num_major_u64 n
  else
    batch_write_bytes_serial table num_major_u64 n.

(** *** The object *)

Context {W : Type} `{MeasureRecordWriter W}.

(** [out] and [temporary_files] hold the bytes written so far to the main
    stream and to each temporary file.  The first writer goes directly to
    [out], the others go into the temporary files. *)
Record MeasureRecordBatchWriter := {
  output_format : SampleFormat;
  out : list byte;
  temporary_files : list (list byte);
  writers : list W;
}.

(** Bytes put by writer [k] on the stream it is bound to. *)
Definition emit (k : nat) (bs : list byte) (self : MeasureRecordBatchWriter)
  : MeasureRecordBatchWriter :=
  match k with
  | 0 =>
      {| output_format := output_format self;
         out := out self ++ bs;
         temporary_files := temporary_files self;
         writers := writers self |}
  | S j =>
      {| output_format := output_format self;
         out := out self;
         temporary_files := alter (fun f => f ++ bs) j (temporary_files self);
         writers := writers self |}
  end.

Definition set_writer (k : nat) (w : W) (self : MeasureRecordBatchWriter)
  : MeasureRecordBatchWriter :=
  {| output_format := output_format self;
     out := out self;
     temporary_files := temporary_files self;
     writers := <[k := w]> (writers self) |}.

(** [writers[k]->method(args)]; there is no writer outside the vector. *)
Definition invoke (d : dispatch) (self : MeasureRecordBatchWriter)
  : option MeasureRecordBatchWriter :=
  w ← writers self !! d.1;
  let '(w', bs) := handle d.2 w in
  Some (emit d.1 bs (set_writer d.1 w' self)).

Fixpoint perform (cs : list dispatch) (self : MeasureRecordBatchWriter)
  : option MeasureRecordBatchWriter :=
  match cs with
  | [] => Some self
  | d :: cs' => self' ← invoke d self; perform cs' self'
  end.

Definition batch_write_bit (self : MeasureRecordBatchWriter)
    (bits : simd_bits_range_ref) : option MeasureRecordBatchWriter :=
  cs ← batch_write_bit_calls (output_format self) (length (writers self)) bits;
  perform cs self.

Definition batch_write_bytes (self : MeasureRecordBatchWriter)
    (table : simd_bit_table) (num_major_u64 : nat)
  : option MeasureRecordBatchWriter :=
  cs ← batch_write_bytes_calls (output_format self) (length (writers self))
         table num_major_u64;
  perform cs self.

(** *** The routines of the implementation file

    [begin_result_type], [write_end] and the constructor are declared in the
    header and defined in the implementation file, which is not part of the
    sources at hand. *)

(** Modelled from the spec: "Delegates the tag to every writer, in
    ascending index order." *)
Definition begin_result_type_calls (n : nat) (result_type : byte)
  : list dispatch :=
  (fun k => (k, BeginResultType result_type)) <$> seq 0 n.

(** Modelled from the spec: [begin_result_type] is "pure forwarding". *)
Definition begin_result_type (self : MeasureRecordBatchWriter)
    (result_type : byte) : option MeasureRecordBatchWriter :=
  perform (begin_result_type_calls (length (writers self)) result_type) self.

(** Modelled from the spec: "Finalizes every writer." *)
Definition write_end_calls (n : nat) : list dispatch :=
  (fun k => (k, WriteEnd)) <$> seq 0 n.

(** Modelled from the spec: "Finalizes every writer.  Then, in
    writer-index order 1..N-1, copies each SpillResource's full byte content
    onto the output channel, contiguously, [...] then releases all
    SpillResources." *)
Definition write_end (self : MeasureRecordBatchWriter)
  : option MeasureRecordBatchWriter :=
  self' ← perform (write_end_calls (length (writers self))) self;
  Some {| output_format := output_format self';
          out := out self' ++ concat (temporary_files self');
          temporary_files := [];
          writers := writers self' |}.

(** Modelled from the spec: construction with writer count [N] "allocates
    N-1 SpillResources and N StreamWriters, writer 0 bound to the output
    channel, writers 1..N-1 bound to their SpillResources".  [ws] are the
    [N] freshly made writers and [out0] is what the output channel already
    holds. *)
Definition construct (out0 : list byte) (ws : list W)
    (fmt : SampleFormat) : MeasureRecordBatchWriter :=
  {| output_format := fmt;
     out := out0;
     temporary_files := replicate (length ws - 1) [];
     writers := ws |}.

(** *** A sequence of calls made by the producer *)

Inductive operation :=
  | Begin_result_type (result_type : byte)
  | Batch_write_bit (bits : simd_bits_range_ref)
  | Batch_write_bytes (table : simd_bit_table) (num_major_u64 : nat).

Definition operation_calls (fmt : SampleFormat) (n : nat) (o : operation)
  : option (list dispatch) :=
  match o with
  | Begin_result_type t => Some (begin_result_type_calls n t)
  | Batch_write_bit bits => batch_write_bit_calls fmt n bits
  | Batch_write_bytes table num_major_u64 =>
      batch_write_bytes_calls fmt n table num_major_u64
  end.

(** All the calls of a sequence of operations on [n] writers. *)
Fixpoint operations_calls (fmt : SampleFormat) (n : nat)
    (os : list operation) : option (list dispatch) :=
  match os with
  | [] => Some []
  | o :: os' =>
      cs ← operation_calls fmt n o;
      rest ← operations_calls fmt n os';
      Some (cs ++ rest)
  end.

Definition run_operation (self : MeasureRecordBatchWriter) (o : operation)
  : option MeasureRecordBatchWriter :=
  match o with
  | Begin_result_type t => begin_result_type self t
  | Batch_write_bit bits => batch_write_bit self bits
  | Batch_write_bytes table num_major_u64 =>
      batch_write_bytes self table num_major_u64
  end.

Fixpoint run_operations (os : list operation) (self : MeasureRecordBatchWriter)
  : option MeasureRecordBatchWriter :=
  match os with
  | [] => Some self
  | o :: os' => self' ← run_operation self o; run_operations os' self'
  end.

(** *** The reference implementation *)

(** Modelled from the spec: "a reference implementation that writes all N
    writers to separate buffers and concatenates them afterward".  It fans
    the samples out as the routines above do; writer [k] is bound to
    [buffers[k]]. *)
Record Reference := {
  ref_format : SampleFormat;
  buffers : list (list byte);
  ref_writers : list W;
}.

(** Modelled from the spec: in the reference, what writer [k] emits goes to
    buffer [k]. *)
Definition ref_invoke (d : dispatch) (r : Reference) : option Reference :=
  w ← ref_writers r !! d.1;
  let '(w', bs) := handle d.2 w in
  Some {| ref_format := ref_format r;
          buffers := alter (fun f => f ++ bs) d.1 (buffers r);
          ref_writers := <[d.1 := w']> (ref_writers r) |}.

(** Modelled from the spec: the reference performs calls in order. *)
Fixpoint ref_perform (cs : list dispatch) (r : Reference) : option Reference :=
  match cs with
  | [] => Some r
  | d :: cs' => r' ← ref_invoke d r; ref_perform cs' r'
  end.

(** Modelled from the spec: the reference fans an operation out to the
    writers as the object does. *)
Definition ref_run_operation (r : Reference) (o : operation)
  : option Reference :=
  cs ← operation_calls (ref_format r) (length (ref_writers r)) o;
  ref_perform cs r.

(** Modelled from the spec: the reference runs operations in order. *)
Fixpoint ref_run_operations (os : list operation) (r : Reference)
  : option Reference :=
  match os with
  | [] => Some r
  | o :: os' => r' ← ref_run_operation r o; ref_run_operations os' r'
  end.

(** Modelled from the spec: the reference starts with [N] empty buffers. *)
Definition ref_construct (ws : list W) (fmt : SampleFormat) : Reference :=
  {| ref_format := fmt;
     buffers := replicate (length ws) [];
     ref_writers := ws |}.

(** Modelled from the spec: the reference finalises every writer, then
    concatenates the buffers. *)
Definition ref_write_end (r : Reference) : option (list byte) :=
  r' ← ref_perform (write_end_calls (length (ref_writers r))) r;
  Some (concat (buffers r')).

(** The object and the reference agree: same format and writers, [out]
    holds what it held at construction followed by buffer 0, and the
    temporary files are the other buffers. *)
Definition matches_reference (out0 : list byte)
    (self : MeasureRecordBatchWriter) (r : Reference) : Prop :=
  output_format self = ref_format r
  /\ writers self = ref_writers r
  /\ exists b0, buffers r = b0 :: temporary_files self
                /\ out self = out0 ++ b0.

(** The state writer [w] ends in after the calls [cs], and the bytes it
    puts on its stream over them. *)
Fixpoint run_calls (cs : list call) (w : W) : W * list byte :=
  match cs with
  | [] => (w, [])
  | c :: cs' =>
      let '(w', bs) := handle c w in
      let '(w'', bs') := run_calls cs' w' in
      (w'', bs ++ bs')
  end.

End BatchWriter.

Arguments MeasureRecordBatchWriter : clear implicits.
Arguments Reference : clear implicits.

(** ** Streams and rows *)

(** The stream the writer at offset [k] is bound to: [out] for the first
    writer, temporary file [k - 1] for the others. *)
Definition stream {SampleFormat W : Type} (k : nat)
    (self : MeasureRecordBatchWriter SampleFormat W) : option (list byte) :=
  match k with
  | 0 => Some (out self)
  | S j => temporary_files self !! j
  end.

(** What the writer at offset [k] of [ws] emits over the calls addressed to
    it in [cs]. *)
Definition emitted {W : Type} `{MeasureRecordWriter W} (ws : list W) (k : nat)
    (cs : list dispatch) : list byte :=
  from_option (fun w => (run_calls (calls_of k cs) w).2) [] (ws !! k).

(** Modelled from the spec: [t[maj]], major row [maj] of a table taken as a
    bit range of one padded stride. *)
Definition table_row (t : simd_bit_table) (maj : nat) : simd_bits_range_ref :=
  slice (data t) (row_u8 t maj) (num_minor_u8_padded t).

(** ** Sample streams served by a writer object *)

(** Modelled from the spec: the constructor is defined in the implementation
    file, which is not part of the sources at hand, so the header does not
    say how many elements [writers] has for the [N] sample streams the
    specification calls writers.  Section 4.3 of the
    specification has the packed row made of ⌈N/64⌉ groups of 8 bytes, "one
    group per 64 consecutive writers": under the packed format one element
    of [writers] serves 64 consecutive streams, under the other formats every
    stream has an element of its own. *)
Definition num_writer_objects (packed : bool) (N : nat) : nat :=
  if packed then (N + 63) / 64 else N.

(** Bit [off] of every whole group of 64 bits of [rb]. *)
Definition every_64th (off : nat) (rb : list bool) : list bool :=
  (fun j => default false (rb !! (64 * j + off))) <$> seq 0 (length rb / 64).

(** Modelled from the spec: the samples of stream [s] among what the writer
    objects [ws] have recorded.  Under the packed format stream [s] is bit
    [s mod 64] of each 64-bit group recorded by element [s / 64] ("bit i of
    byte b encodes the sample for writer 8b+i" within the group); under the
    other formats it is all that element [s] recorded. *)
Definition stream_samples (packed : bool) (ws : list (list call)) (s : nat)
  : list bool :=
  if packed
  then every_64th (s mod 64) (recorded_bits (default [] (ws !! (s / 64))))
  else recorded_bits (default [] (ws !! s)).

(** * Concrete inputs *)

(** Modelled from the spec: the two sample formats the specification names.
    [TRANSPOSED_PACKED_64] is the format the header calls
    [SAMPLE_FORMAT_PTB64]. *)
Inductive spec_format := SERIAL | TRANSPOSED_PACKED_64.

#[export] Instance spec_format_eq_dec : EqDecision spec_format.
Proof. solve_decision. Defined.

Definition byte_of_nat (n : nat) : byte :=
  default Byte.x00 (Byte.of_N (N.of_nat (n mod 256))).

(** A row of sixteen distinct bytes, 1 .. 16. *)
Definition example_row : simd_bits_range_ref := byte_of_nat <$> seq 1 16.

(** A table of 64 major rows by 128 minor columns; byte [i] holds [i mod 256]. *)
Definition example_table : simd_bit_table :=
  {| num_major_u64_padded := 1;
     num_minor_u64_padded := 2;
     data := byte_of_nat <$> seq 0 1024 |}.

(** Sixty-four rows of 64 columns; every byte of row [m] holds [m + 1]. *)
Definition example_rows : list simd_bits_range_ref :=
  (fun m => replicate 8 (byte_of_nat (m + 1))) <$> seq 0 64.

(** The table whose major row [m] is row [m] of [example_rows]. *)
Definition example_rows_table : simd_bit_table :=
  {| num_major_u64_padded := 1;
     num_minor_u64_padded := 1;
     data := concat example_rows |}.

(** A writer that puts the bytes it is given on its stream, one byte per
    single bit, the tag byte for a section, and a line feed at the end. *)
#[export] Instance ByteEcho : MeasureRecordWriter unit := {|
  writer_begin_result_type t w := (w, [t]);
  writer_write_bit b w := (w, [if b then Byte.x31 else Byte.x30]);
  writer_write_bytes bs w := (w, bs);
  writer_write_end w := (w, [Byte.x0a]);
|}.

(** * Properties *)

(** ** Bytes, bits and slices *)

Lemma get_bit_byte_of_fun (f : nat -> bool) (i : nat) :
  i < 8 -> get_bit (byte_of_fun f) i = f i.
Proof.
  intros Hi. unfold get_bit, byte_of_fun.
  rewrite Byte.to_bits_of_bits.
  do 8 (destruct i as [|i]; [reflexivity|]). lia.
Qed.

Lemma length_bits_of_byte (b : byte) : length (bits_of_byte b) = 8.
Proof. reflexivity. Qed.

Lemma length_bits_of_bytes (bs : list byte) :
  length (bits_of_bytes bs) = 8 * length bs.
Proof.
  unfold bits_of_bytes. induction bs as [|b bs IH]; [reflexivity|].
  rewrite bind_cons, length_app, IH, length_bits_of_byte. cbn [length]. lia.
Qed.

Lemma lookup_bits_of_byte (b : byte) (j : nat) :
  j < 8 -> bits_of_byte b !! j = Some (get_bit b j).
Proof.
  intros Hj. unfold bits_of_byte.
  rewrite list_lookup_fmap, lookup_seq_lt by lia. reflexivity.
Qed.

(** The bits a writer consumes from a run of bytes are the bits of the run
    read as a bit range. *)
Lemma lookup_bits_of_bytes (bs : list byte) (j : nat) :
  j < 8 * length bs -> bits_of_bytes bs !! j = bits_get bs j.
Proof.
  revert j. induction bs as [|b bs IH]; intros j Hj; [cbn in Hj; lia|].
  unfold bits_of_bytes. rewrite bind_cons. fold (bits_of_bytes bs).
  destruct (decide (j < 8)) as [Hlt|Hge].
  - rewrite lookup_app_l by (rewrite length_bits_of_byte; lia).
    rewrite lookup_bits_of_byte by lia.
    unfold bits_get. rewrite Nat.div_small, Nat.mod_small by lia. reflexivity.
  - rewrite lookup_app_r by (rewrite length_bits_of_byte; lia).
    rewrite length_bits_of_byte, IH by (cbn [length] in Hj; lia).
    unfold bits_get.
    assert (j / 8 = S ((j - 8) / 8)) as Hdiv.
    { replace j with ((j - 8) + 1 * 8) at 1 by lia.
      rewrite Nat.div_add by lia. lia. }
    assert (j mod 8 = (j - 8) mod 8) as Hmod.
    { replace j with ((j - 8) + 1 * 8) at 1 by lia.
      apply Nat.Div0.mod_add. }
    rewrite Hdiv, Hmod. reflexivity.
Qed.

Lemma length_slice (buf : list byte) (off len : nat) :
  off + len <= length buf -> length (slice buf off len) = len.
Proof. intros Hle. unfold slice. rewrite length_take, length_drop. lia. Qed.

Lemma lookup_slice (buf : list byte) (off len i : nat) :
  i < len -> slice buf off len !! i = buf !! (off + i).
Proof.
  intros Hi. unfold slice. rewrite lookup_take_lt by lia.
  apply lookup_drop.
Qed.

(** Bit [j] of the slice that starts at byte [off] is bit [8 * off + j] of
    the buffer. *)
Lemma bits_get_slice (buf : list byte) (off len j : nat) :
  j < 8 * len -> bits_get (slice buf off len) j = bits_get buf (8 * off + j).
Proof.
  intros Hj. unfold bits_get.
  rewrite lookup_slice by (apply Nat.Div0.div_lt_upper_bound; lia).
  replace (8 * off + j) with (j + off * 8) by lia.
  rewrite Nat.div_add, Nat.Div0.mod_add by lia.
  replace (off + j / 8) with (j / 8 + off) by lia. reflexivity.
Qed.

Lemma bits_get_is_Some (bits : simd_bits_range_ref) (k : nat) :
  k < 8 * length bits -> bits_get bits k = Some (bit_at bits k).
Proof.
  intros Hk. unfold bit_at, bits_get.
  destruct (lookup_lt_is_Some_2 bits (k / 8)) as [b Hb].
  { apply Nat.Div0.div_lt_upper_bound; lia. }
  rewrite Hb. reflexivity.
Qed.

Lemma bits_get_None (bits : simd_bits_range_ref) (k : nat) :
  8 * length bits <= k -> bits_get bits k = None.
Proof.
  intros Hk. unfold bits_get.
  rewrite lookup_ge_None_2; [reflexivity|].
  apply Nat.div_le_lower_bound; lia.
Qed.

(** ** size_t products and pointer ranges *)

Lemma size_t_mul_fits (a b : nat) :
  fits_size_t (a * b) -> size_t_mul a b = a * b.
Proof.
  unfold fits_size_t, size_t_mul, size_t_wrap. intros Hfit.
  rewrite N.mod_small by exact Hfit. apply Nat2N.id.
Qed.

Lemma fits_size_t_le (x y : nat) : x <= y -> fits_size_t y -> fits_size_t x.
Proof. unfold fits_size_t. lia. Qed.

Lemma read_range_inside (buf : list byte) (p len : nat) :
  p + len <= length buf -> read_range buf p (p + len) = Some (slice buf p len).
Proof.
  intros Hin. unfold read_range.
  destruct (decide (p + len <= p)) as [Hle|Hgt].
  - assert (len = 0) as -> by lia. reflexivity.
  - rewrite decide_True by lia. f_equal. f_equal. lia.
Qed.

Lemma read_range_inside_empty (buf : list byte) (p : nat) :
  read_range buf p (p + 0) = Some [].
Proof. unfold read_range. rewrite decide_True by lia. reflexivity. Qed.

Lemma read_range_outside (buf : list byte) (p len : nat) :
  0 < len -> length buf < p + len -> read_range buf p (p + len) = None.
Proof.
  intros Hlen Hout. unfold read_range.
  rewrite decide_False by lia. rewrite decide_False by lia. reflexivity.
Qed.

(** ** Loops *)

Lemma for_loop_Some (n k0 : nat) (body : nat -> option (list dispatch))
    (f : nat -> list dispatch) :
  (forall k, k0 <= k < k0 + n -> body k = Some (f k)) ->
  for_loop n k0 body = Some (seq k0 n ≫= f).
Proof.
  revert k0. induction n as [|n IH]; intros k0 Hbody; [reflexivity|].
  cbn [for_loop seq]. rewrite Hbody by lia. cbn [mbind option_bind].
  rewrite (IH (S k0)) by (intros k Hk; apply Hbody; lia).
  reflexivity.
Qed.

Lemma for_loop_None (n k0 k : nat) (body : nat -> option (list dispatch)) :
  k0 <= k < k0 + n -> body k = None -> for_loop n k0 body = None.
Proof.
  revert k0. induction n as [|n IH]; intros k0 Hk Hnone; [lia|].
  cbn [for_loop].
  destruct (decide (k = k0)) as [->|Hne].
  - rewrite Hnone. reflexivity.
  - rewrite (IH (S k0)) by (lia || assumption).
    destruct (body k0); reflexivity.
Qed.

Lemma bind_singleton_fmap {A B : Type} (f : A -> B) (l : list A) :
  l ≫= (fun x => [f x]) = f <$> l.
Proof.
  induction l as [|x l IH]; [reflexivity|].
  rewrite bind_cons, fmap_cons, IH. reflexivity.
Qed.

Lemma bits_of_bytes_slice (buf : list byte) (off len : nat) :
  off + len <= length buf ->
  bits_of_bytes (slice buf off len)
  = (fun j => bit_at buf (8 * off + j)) <$> seq 0 (8 * len).
Proof.
  intros Hin. apply list_eq. intros j.
  destruct (decide (j < 8 * len)) as [Hj|Hj].
  - rewrite lookup_bits_of_bytes by (rewrite length_slice; lia).
    rewrite bits_get_slice by lia.
    rewrite list_lookup_fmap, lookup_seq_lt by lia.
    apply bits_get_is_Some. lia.
  - rewrite !lookup_ge_None_2; [reflexivity| |].
    + rewrite length_fmap, length_seq. lia.
    + rewrite length_bits_of_bytes, length_slice; lia.
Qed.

(** ** Calls addressed to one writer *)

Lemma calls_of_app (k : nat) (cs1 cs2 : list dispatch) :
  calls_of k (cs1 ++ cs2) = calls_of k cs1 ++ calls_of k cs2.
Proof. unfold calls_of. rewrite list.filter_app, fmap_app. reflexivity. Qed.

Lemma calls_of_pair_eq (k : nat) (l : list call) :
  calls_of k (pair k <$> l) = l.
Proof.
  unfold calls_of. induction l as [|c l IH]; [reflexivity|].
  rewrite fmap_cons, filter_cons_True by reflexivity.
  rewrite fmap_cons, IH. reflexivity.
Qed.

Lemma calls_of_pair_ne (k i : nat) (l : list call) :
  i <> k -> calls_of k (pair i <$> l) = [].
Proof.
  intros Hne. unfold calls_of. induction l as [|c l IH]; [reflexivity|].
  rewrite fmap_cons, filter_cons_False by (cbn; congruence).
  exact IH.
Qed.

Lemma calls_of_bind_seq (g : nat -> list call) (k0 n k : nat) :
  calls_of k (seq k0 n ≫= (fun i => pair i <$> g i))
  = if decide (k0 <= k < k0 + n) then g k else [].
Proof.
  revert k0. induction n as [|n IH]; intros k0.
  - cbn [seq]. rewrite decide_False by lia. reflexivity.
  - cbn [seq]. rewrite bind_cons, calls_of_app, IH.
    destruct (decide (k0 = k)) as [->|Hne].
    + rewrite calls_of_pair_eq, decide_False by lia.
      rewrite decide_True by lia. apply app_nil_r.
    + rewrite calls_of_pair_ne by exact Hne. cbn [app].
      destruct (decide (S k0 <= k < S k0 + n)).
      * rewrite decide_True by lia. reflexivity.
      * rewrite decide_False by lia. reflexivity.
Qed.

(** Writer [k] receives [g k] from a fan-out over [n > k] writers. *)
Lemma calls_of_fan_out (n : nat) (g : nat -> list call) (k : nat) :
  k < n -> calls_of k (fan_out n g) = g k.
Proof.
  intros Hk. unfold fan_out. rewrite calls_of_bind_seq.
  rewrite decide_True by lia. reflexivity.
Qed.

Lemma fan_out_singleton (n : nat) (c : nat -> call) :
  fan_out n (fun k => [c k]) = (fun k => (k, c k)) <$> seq 0 n.
Proof. unfold fan_out. apply (bind_singleton_fmap (fun k => (k, c k))). Qed.

Lemma fan_out_indices (n : nat) (g : nat -> list call) :
  Forall (fun d : dispatch => d.1 < n) (fan_out n g).
Proof.
  unfold fan_out. apply list.Forall_forall. intros d Hd.
  apply list_elem_of_bind in Hd as (k & Hd & Hk).
  apply list_elem_of_fmap in Hd as (c & -> & _).
  apply elem_of_seq in Hk. cbn. lia.
Qed.

(** ** The bit table and its transpose *)

Lemma table_bit_bit_at (t : simd_bit_table) (maj min : nat) :
  table_bit t maj min
  = bit_at (data t) (8 * (maj * num_minor_u8_padded t) + min).
Proof.
  unfold table_bit, bit_at, bits_get.
  replace (8 * (maj * num_minor_u8_padded t) + min)
    with (min + (maj * num_minor_u8_padded t) * 8) by lia.
  rewrite Nat.div_add, Nat.Div0.mod_add by lia.
  replace (min / 8 + maj * num_minor_u8_padded t)
    with (maj * num_minor_u8_padded t + min / 8) by lia.
  destruct (data t !! _); reflexivity.
Qed.

Lemma length_bind_const {A B : Type} (g : A -> list B) (l : list A) (c : nat) :
  (forall x, length (g x) = c) -> length (l ≫= g) = length l * c.
Proof.
  intros Hg. induction l as [|x l IH]; [reflexivity|].
  rewrite bind_cons, length_app, Hg, IH. cbn [length]. lia.
Qed.

Lemma lookup_bind_const {A B : Type} (g : A -> list B) (l : list A)
    (c r i : nat) (x : A) :
  (forall y, length (g y) = c) -> l !! r = Some x -> i < c ->
  (l ≫= g) !! (r * c + i) = g x !! i.
Proof.
  intros Hg. revert r. induction l as [|y l IH]; intros r Hr Hi; [done|].
  rewrite bind_cons. destruct r as [|r].
  - injection Hr as ->. rewrite lookup_app_l by (rewrite Hg; lia).
    reflexivity.
  - rewrite lookup_app_r by (rewrite Hg; lia).
    rewrite Hg. replace (S r * c + i - c) with (r * c + i) by lia.
    apply IH; assumption.
Qed.

Lemma length_transposed_data (t : simd_bit_table) :
  length (data (transposed t))
  = num_minor_bits_padded t * (8 * num_major_u64_padded t).
Proof.
  cbn [transposed data].
  rewrite (length_bind_const _ _ (8 * num_major_u64_padded t)).
  - rewrite length_seq. reflexivity.
  - intros r. rewrite (length_bind_const _ _ 1) by reflexivity.
    rewrite length_seq. lia.
Qed.

Lemma lookup_transposed_data (t : simd_bit_table) (r c : nat) :
  r < num_minor_bits_padded t -> c < 8 * num_major_u64_padded t ->
  data (transposed t) !! (r * (8 * num_major_u64_padded t) + c)
  = Some (byte_of_fun (fun i => table_bit t (8 * c + i) r)).
Proof.
  intros Hr Hc. cbn [transposed data].
  rewrite (lookup_bind_const _ _ (8 * num_major_u64_padded t) r c r).
  - rewrite (bind_singleton_fmap (fun c => byte_of_fun (fun i => table_bit t (8 * c + i) r))).
    rewrite list_lookup_fmap, lookup_seq_lt by lia. reflexivity.
  - intros y. rewrite (length_bind_const _ _ 1) by reflexivity.
    rewrite length_seq. lia.
  - apply lookup_seq_lt. lia.
  - lia.
Qed.

(** Transposition preserves the logical content. *)
Lemma table_bit_transposed (t : simd_bit_table) (maj min : nat) :
  maj < num_minor_bits_padded t -> min < num_major_bits_padded t ->
  table_bit (transposed t) maj min = table_bit t min maj.
Proof.
  intros Hmaj Hmin. unfold table_bit at 1.
  change (num_minor_u8_padded (transposed t)) with (8 * num_major_u64_padded t).
  rewrite lookup_transposed_data.
  - rewrite get_bit_byte_of_fun by (apply Nat.mod_upper_bound; lia).
    rewrite <- Nat.div_mod_eq. reflexivity.
  - exact Hmaj.
  - apply Nat.Div0.div_lt_upper_bound. unfold num_major_bits_padded in Hmin. lia.
Qed.

Section CallsIssued.

Context {SampleFormat : Type} `{EqDecision SampleFormat}.
Variable SAMPLE_FORMAT_PTB64 : SampleFormat.

(** *** The packed branch of [batch_write_bit] *)

Lemma batch_write_bit_ptb64_inside (u8 : list byte) (p k n : nat) :
  p + 8 * n <= length u8 ->
  batch_write_bit_ptb64 u8 p k n
  = Some ((fun i => (k + i, WriteBytes (slice u8 (p + 8 * i) 8))) <$> seq 0 n).
Proof.
  revert p k. induction n as [|n IH]; intros p k Hin; [reflexivity|].
  cbn [batch_write_bit_ptb64].
  rewrite read_range_inside by lia. cbn [mbind option_bind].
  rewrite IH by lia. cbn [mbind option_bind seq fmap list_fmap].
  rewrite Nat.add_0_r, Nat.mul_0_r, Nat.add_0_r.
  rewrite <- fmap_S_seq, <- list_fmap_compose.
  do 2 f_equal. apply list_fmap_ext. intros _ i _. cbn [compose].
  replace (p + 8 + 8 * i) with (p + 8 * S i) by lia.
  replace (S k + i) with (k + S i) by lia. reflexivity.
Qed.

Lemma batch_write_bit_ptb64_outside (u8 : list byte) (p k n : nat) :
  p <= length u8 -> length u8 < p + 8 * n ->
  batch_write_bit_ptb64 u8 p k n = None.
Proof.
  revert p k. induction n as [|n IH]; intros p k Hp Hout; [lia|].
  cbn [batch_write_bit_ptb64].
  destruct (decide (p + 8 <= length u8)) as [Hin|Hfar].
  - rewrite read_range_inside by lia. cbn [mbind option_bind].
    rewrite IH by lia. reflexivity.
  - rewrite read_range_outside by lia. reflexivity.
Qed.

Lemma batch_write_bit_ptb64_calls (n : nat) (bits : simd_bits_range_ref) :
  batch_write_bit_calls SAMPLE_FORMAT_PTB64 SAMPLE_FORMAT_PTB64 n bits
  = if decide (8 * n <= length bits)
    then Some (fan_out n (fun k => [WriteBytes (slice bits (8 * k) 8)]))
    else None.
Proof.
  unfold batch_write_bit_calls. rewrite decide_True by reflexivity.
  destruct (decide (8 * n <= length bits)) as [Hin|Hout].
  - rewrite batch_write_bit_ptb64_inside by lia.
    rewrite fan_out_singleton. reflexivity.
  - apply batch_write_bit_ptb64_outside; lia.
Qed.

(** *** The per-bit branch of [batch_write_bit] *)

Lemma batch_write_bit_serial_inside (n : nat) (bits : simd_bits_range_ref) :
  n <= 8 * length bits ->
  batch_write_bit_serial bits n
  = Some ((fun k => (k, WriteBit (bit_at bits k))) <$> seq 0 n).
Proof.
  intros Hin. unfold batch_write_bit_serial.
  rewrite (for_loop_Some _ _ _ (fun k => [(k, WriteBit (bit_at bits k))])).
  - rewrite (bind_singleton_fmap (fun k => (k, WriteBit (bit_at bits k)))).
    reflexivity.
  - intros k Hk. rewrite bits_get_is_Some by lia. reflexivity.
Qed.

Lemma batch_write_bit_serial_outside (n : nat) (bits : simd_bits_range_ref) :
  8 * length bits < n -> batch_write_bit_serial bits n = None.
Proof.
  intros Hout. unfold batch_write_bit_serial.
  apply (for_loop_None _ _ (8 * length bits)); [lia|].
  rewrite bits_get_None by lia. reflexivity.
Qed.

(** *** The two branches of [batch_write_bytes] *)

Lemma packed_group_inside (t : simd_bit_table) (n m k w : nat) :
  table_wf t -> 8 * n <= num_minor_u8_padded t ->
  m <= num_major_bits_padded t -> k < n -> w < m ->
  fits_size_t (k * 8) /\ fits_size_t (num_minor_u8_padded t * w)
  /\ 8 * k + num_minor_u8_padded t * w + 8 <= length (data t).
Proof.
  intros [Hlen Hfit] Hn Hm Hk Hw.
  assert (num_minor_u8_padded t * w + num_minor_u8_padded t
          <= length (data t)) as Hrow.
  { rewrite Hlen.
    replace (num_minor_u8_padded t * w + num_minor_u8_padded t)
      with (S w * num_minor_u8_padded t) by lia.
    apply Nat.mul_le_mono_r. lia. }
  split; [|split].
  - apply (fits_size_t_le _ (length (data t))); [lia|exact Hfit].
  - apply (fits_size_t_le _ (length (data t))); [lia|exact Hfit].
  - lia.
Qed.

Lemma batch_write_bytes_ptb64_inside (t : simd_bit_table) (n m : nat) :
  table_wf t -> 8 * n <= num_minor_u8_padded t ->
  m <= num_major_bits_padded t ->
  batch_write_bytes_ptb64 t m n
  = Some (fan_out n (fun k =>
            (fun w => WriteBytes (packed_group t k w)) <$> seq 0 m)).
Proof.
  intros Hwf Hn Hm. unfold batch_write_bytes_ptb64, fan_out.
  apply for_loop_Some. intros k Hk.
  rewrite (for_loop_Some _ _ _
             (fun w => [(k, WriteBytes (packed_group t k w))])).
  - rewrite (bind_singleton_fmap
               (fun w => (k, WriteBytes (packed_group t k w)))).
    rewrite <- list_fmap_compose. reflexivity.
  - intros w Hw.
    destruct (packed_group_inside t n m k w) as (Hf1 & Hf2 & Hin);
      [assumption || lia ..|].
    rewrite !size_t_mul_fits by assumption.
    replace (k * 8) with (8 * k) by lia.
    rewrite read_range_inside by lia. reflexivity.
Qed.

(** The bits of a packed group are the table bits at major index [w] and
    minor indices [64k .. 64k+63]. *)
Lemma packed_group_bits (t : simd_bit_table) (k w : nat) :
  8 * k + num_minor_u8_padded t * w + 8 <= length (data t) ->
  bits_of_bytes (packed_group t k w)
  = (fun j => table_bit t w (64 * k + j)) <$> seq 0 64.
Proof.
  intros Hin. unfold packed_group.
  rewrite bits_of_bytes_slice by lia.
  apply list_fmap_ext. intros _ j _.
  rewrite table_bit_bit_at. f_equal. lia.
Qed.

Lemma transposed_run_inside (t : simd_bit_table) (n m k : nat) :
  table_wf t -> n <= num_minor_bits_padded t ->
  m <= num_major_u64_padded t -> k < n ->
  fits_size_t (m * 8)
  /\ row_u8 (transposed t) k + m * 8 <= length (data (transposed t)).
Proof.
  intros [Hlen Hfit] Hn Hm Hk. split.
  - apply (fits_size_t_le _ (length (data t))); [|exact Hfit].
    rewrite Hlen. unfold num_major_bits_padded, num_minor_u8_padded.
    unfold num_minor_bits_padded in Hn.
    assert (1 <= num_minor_u64_padded t) as Hpos by lia.
    transitivity (64 * num_major_u64_padded t * 8); [lia|].
    apply Nat.mul_le_mono_l. lia.
  - rewrite length_transposed_data. unfold row_u8.
    change (num_minor_u8_padded (transposed t))
      with (8 * num_major_u64_padded t).
    transitivity (S k * (8 * num_major_u64_padded t)); [lia|].
    apply Nat.mul_le_mono_r. lia.
Qed.

Lemma batch_write_bytes_serial_inside (t : simd_bit_table) (n m : nat) :
  table_wf t -> n <= num_minor_bits_padded t ->
  m <= num_major_u64_padded t ->
  batch_write_bytes_serial t m n
  = Some (fan_out n (fun k => [WriteBytes (transposed_run t m k)])).
Proof.
  intros Hwf Hn Hm. unfold batch_write_bytes_serial, fan_out.
  apply for_loop_Some. intros k Hk.
  destruct (transposed_run_inside t n m k) as (Hfit & Hin);
    [assumption || lia ..|].
  rewrite size_t_mul_fits by assumption.
  rewrite read_range_inside by lia. reflexivity.
Qed.

(** The bits of the run of writer [k] are the table bits at minor index
    [k], major indices [0 .. 64 * num_major_u64 - 1]. *)
Lemma transposed_run_bits (t : simd_bit_table) (m k : nat) :
  k < num_minor_bits_padded t -> m <= num_major_u64_padded t ->
  bits_of_bytes (transposed_run t m k)
  = (fun j => table_bit t j k) <$> seq 0 (64 * m).
Proof.
  intros Hk Hm. unfold transposed_run.
  rewrite bits_of_bytes_slice.
  - replace (8 * (m * 8)) with (64 * m) by lia.
    apply list.Forall_fmap_ext_1, list.Forall_forall. intros j Hj.
    apply elem_of_seq in Hj.
    rewrite <- table_bit_transposed
      by (unfold num_major_bits_padded; lia).
    rewrite table_bit_bit_at. reflexivity.
  - rewrite length_transposed_data. unfold row_u8.
    change (num_minor_u8_padded (transposed t))
      with (8 * num_major_u64_padded t).
    transitivity (S k * (8 * num_major_u64_padded t)); [lia|].
    apply Nat.mul_le_mono_r. lia.
Qed.

End CallsIssued.

(** ** Running calls against the object *)

Section Object.

Context {SampleFormat : Type} `{EqDecision SampleFormat}.
Variable SAMPLE_FORMAT_PTB64 : SampleFormat.
Context {W : Type} `{MeasureRecordWriter W}.

Abbreviation Self := (MeasureRecordBatchWriter SampleFormat W).
Abbreviation Ref := (Reference SampleFormat W).

Lemma invoke_Some (d : dispatch) (self self' : Self) :
  invoke d self = Some self' ->
  exists w, writers self !! d.1 = Some w
    /\ self' = emit d.1 (handle d.2 w).2 (set_writer d.1 (handle d.2 w).1 self).
Proof.
  unfold invoke. intros Hinv.
  destruct (writers self !! d.1) as [w|]; [|discriminate].
  exists w. split; [reflexivity|].
  cbn [mbind option_bind] in Hinv. destruct (handle d.2 w) as [w' bs].
  injection Hinv as <-. reflexivity.
Qed.

Lemma invoke_frame (d : dispatch) (self self' : Self) :
  invoke d self = Some self' ->
  output_format self' = output_format self
  /\ length (writers self') = length (writers self).
Proof.
  intros Hinv. apply invoke_Some in Hinv as (w & _ & ->).
  destruct d as [[|j] c]; cbn; rewrite length_insert; auto.
Qed.

Lemma invoke_writers (d : dispatch) (self self' : Self) (k : nat) :
  invoke d self = Some self' ->
  writers self' !! k
  = (fun w => if decide (d.1 = k) then (handle d.2 w).1 else w)
      <$> writers self !! k.
Proof.
  intros Hinv. apply invoke_Some in Hinv as (w & Hw & ->).
  assert (writers (emit d.1 (handle d.2 w).2
                     (set_writer d.1 (handle d.2 w).1 self))
          = <[d.1 := (handle d.2 w).1]> (writers self)) as ->.
  { destruct d as [[|j] c]; reflexivity. }
  destruct (decide (d.1 = k)) as [<-|Hne].
  - rewrite list_lookup_insert_eq by (eapply lookup_lt_Some; exact Hw).
    rewrite Hw. reflexivity.
  - rewrite list_lookup_insert_ne by exact Hne.
    destruct (writers self !! k); reflexivity.
Qed.

Lemma perform_app (cs1 cs2 : list dispatch) (self : Self) :
  perform (cs1 ++ cs2) self = perform cs1 self ≫= perform cs2.
Proof.
  revert self. induction cs1 as [|d cs1 IH]; intros self; [reflexivity|].
  cbn [app perform]. destruct (invoke d self) as [self'|]; [|reflexivity].
  cbn [mbind option_bind]. apply IH.
Qed.

Lemma perform_frame (cs : list dispatch) (self self' : Self) :
  perform cs self = Some self' ->
  output_format self' = output_format self
  /\ length (writers self') = length (writers self).
Proof.
  revert self. induction cs as [|d cs IH]; intros self Hp.
  - injection Hp as <-. auto.
  - cbn [perform] in Hp.
    destruct (invoke d self) as [self1|] eqn:Hinv; [|discriminate].
    cbn [mbind option_bind] in Hp.
    destruct (IH _ Hp) as [-> ->]. exact (invoke_frame _ _ _ Hinv).
Qed.

(** Calls addressed to writers of the vector can all be performed. *)
Lemma perform_is_Some (cs : list dispatch) (self : Self) :
  Forall (fun d : dispatch => d.1 < length (writers self)) cs ->
  is_Some (perform cs self).
Proof.
  revert self. induction cs as [|d cs IH]; intros self Hall; [by eexists|].
  apply list.Forall_cons in Hall as [Hd Hall]. cbn [perform].
  destruct (lookup_lt_is_Some_2 _ _ Hd) as [w Hw].
  destruct (invoke d self) as [self1|] eqn:Hinv.
  - cbn [mbind option_bind]. apply IH.
    apply invoke_frame in Hinv as [_ ->]. exact Hall.
  - unfold invoke in Hinv. rewrite Hw in Hinv.
    cbn [mbind option_bind] in Hinv.
    destruct (handle d.2 w); discriminate.
Qed.

(** After a sequence of calls, each writer has gone through the calls
    addressed to it, in order. *)
Lemma perform_writers (cs : list dispatch) (self self' : Self) (k : nat) :
  perform cs self = Some self' ->
  writers self' !! k
  = (fun w => (run_calls (calls_of k cs) w).1) <$> writers self !! k.
Proof.
  revert self. induction cs as [|d cs IH]; intros self Hp.
  - injection Hp as <-. destruct (writers self !! k); reflexivity.
  - cbn [perform] in Hp.
    destruct (invoke d self) as [self1|] eqn:Hinv; [|discriminate].
    cbn [mbind option_bind] in Hp.
    rewrite (IH _ Hp), (invoke_writers _ _ _ _ Hinv).
    destruct (writers self !! k) as [w|]; [|reflexivity].
    cbn [fmap option_fmap option_map]. f_equal.
    change (d :: cs) with ([d] ++ cs). rewrite calls_of_app.
    unfold calls_of at 2. cbn [filter list_filter].
    destruct (decide (d.1 = k)) as [Heq|Hne].
    + cbn [fmap list_fmap app run_calls].
      destruct (handle d.2 w) as [w1 bs1]. cbn [fst].
      destruct (run_calls (calls_of k cs) w1). reflexivity.
    + reflexivity.
Qed.

End Object.

(** * The single-row entry point, per-bit branch *)

(** C7.  Under the SERIAL format (any format other than the packed one),
    [batch_write_bit] on a row that holds a bit for each of the [n] writers
    issues, for k = 0 .. n-1 in ascending order, one [write_bit] to writer
    [k] with the bit at offset [k] of the row, and nothing else. *)
Theorem serial_batch_write_bit_fan_out
    {SampleFormat : Type} `{EqDecision SampleFormat}
    (SAMPLE_FORMAT_PTB64 fmt : SampleFormat)
    (n : nat) (bits : simd_bits_range_ref) :
  fmt <> SAMPLE_FORMAT_PTB64 ->
  n <= 8 * length bits ->
  batch_write_bit_calls SAMPLE_FORMAT_PTB64 fmt n bits
  = Some ((fun k => (k, WriteBit (bit_at bits k))) <$> seq 0 n)
  /\ forall k, k < n -> bits_get bits k = Some (bit_at bits k).
Proof.
  intros Hfmt Hin. split.
  - unfold batch_write_bit_calls. rewrite decide_False by exact Hfmt.
    apply batch_write_bit_serial_inside, Hin.
  - intros k Hk. apply bits_get_is_Some. lia.
Qed.

Lemma serial_batch_write_bit_fan_out_witness :
  batch_write_bit_calls TRANSPOSED_PACKED_64 SERIAL 3 example_row
  = Some [(0, WriteBit true); (1, WriteBit false); (2, WriteBit false)].
Proof.
  exact (proj1 (serial_batch_write_bit_fan_out TRANSPOSED_PACKED_64 SERIAL 3
                  example_row ltac:(discriminate) ltac:(vm_compute; lia))).
Defined.

(** * The single-row entry point, packed branch *)

Lemma stream_element_lt (N s : nat) : s < N -> s / 64 < (N + 63) / 64.
Proof.
  intros Hs. apply Nat.Div0.div_lt_upper_bound.
  pose proof (Nat.div_mod_eq (N + 63) 64) as Hdiv.
  pose proof (Nat.mod_upper_bound (N + 63) 64) as Hmod. lia.
Qed.

Lemma stream_position (s : nat) : 64 * (s / 64) + s mod 64 = s.
Proof. symmetry. apply Nat.div_mod_eq. Qed.

(** C3.  Under the packed format, with [N] sample streams (the
    specification's writers) served by ⌈N/64⌉ writer objects, [batch_write_bit] reads a row of at least ⌈N/64⌉ groups of 8
    bytes as one group per 64 consecutive streams: it hands group [g] (bytes
    [8g .. 8g+7] of the row), verbatim and as one [write_bytes], to the
    object that serves streams [64g .. 64g+63], for g ascending, and does
    nothing else; within the group handed to its object, the bit of stream
    [s] is at position [s mod 64] and is bit [s] of the row. *)
Theorem ptb64_batch_write_bit_row_groups
    {SampleFormat : Type} `{EqDecision SampleFormat}
    (SAMPLE_FORMAT_PTB64 : SampleFormat)
    (N : nat) (bits : simd_bits_range_ref) :
  8 * num_writer_objects true N <= length bits ->
  batch_write_bit_calls SAMPLE_FORMAT_PTB64 SAMPLE_FORMAT_PTB64
    (num_writer_objects true N) bits
  = Some ((fun g => (g, WriteBytes (slice bits (8 * g) 8)))
            <$> seq 0 ((N + 63) / 64))
  /\ forall s, s < N ->
       s / 64 < (N + 63) / 64
       /\ length (slice bits (8 * (s / 64)) 8) = 8
       /\ bits_of_bytes (slice bits (8 * (s / 64)) 8) !! (s mod 64)
          = Some (bit_at bits s).
Proof.
  cbn [num_writer_objects]. intros Hin. split.
  - rewrite batch_write_bit_ptb64_calls, decide_True by exact Hin.
    rewrite fan_out_singleton. reflexivity.
  - intros s Hs. pose proof (stream_element_lt N s Hs) as Hg.
    pose proof (Nat.mod_upper_bound s 64 ltac:(lia)) as Hoff.
    split; [exact Hg|]. split; [apply length_slice; lia|].
    rewrite bits_of_bytes_slice by lia.
    rewrite list_lookup_fmap, lookup_seq_lt by lia.
    cbn [fmap option_fmap option_map]. do 2 f_equal.
    pose proof (stream_position s). lia.
Qed.

Lemma ptb64_batch_write_bit_row_groups_witness :
  batch_write_bit_calls TRANSPOSED_PACKED_64 TRANSPOSED_PACKED_64
    (num_writer_objects true 100) example_row
  = Some ((fun g => (g, WriteBytes (slice example_row (8 * g) 8)))
            <$> seq 0 ((100 + 63) / 64)).
Proof.
  refine (proj1 (ptb64_batch_write_bit_row_groups TRANSPOSED_PACKED_64 100
                   example_row _)).
  vm_compute. lia.
Defined.

(** C10.  Under [SAMPLE_FORMAT_PTB64], [batch_write_bit] reads 8 bytes per
    writer: the call stays inside the row exactly when the row holds at least
    [8 n] bytes; writer [k] then receives bytes [8k .. 8k+7], that is bits
    [64k .. 64k+63] of the row, and not the single bit at offset [k]. *)
Theorem ptb64_batch_write_bit_reads_eight_bytes_per_writer
    {SampleFormat : Type} `{EqDecision SampleFormat}
    (SAMPLE_FORMAT_PTB64 : SampleFormat)
    (n : nat) (bits : simd_bits_range_ref) :
  (is_Some (batch_write_bit_calls SAMPLE_FORMAT_PTB64 SAMPLE_FORMAT_PTB64 n bits)
   <-> 8 * n <= length bits)
  /\ forall cs,
       batch_write_bit_calls SAMPLE_FORMAT_PTB64 SAMPLE_FORMAT_PTB64 n bits
       = Some cs ->
       forall k, k < n ->
         calls_of k cs = [WriteBytes (slice bits (8 * k) 8)]
         /\ recorded_bits (calls_of k cs)
            = (fun j => bit_at bits (64 * k + j)) <$> seq 0 64
         /\ recorded_bits (calls_of k cs) <> [bit_at bits k].
Proof.
  rewrite batch_write_bit_ptb64_calls.
  destruct (decide (8 * n <= length bits)) as [Hin|Hout].
  - split; [split; [auto|by eexists]|].
    intros cs [= <-] k Hk.
    rewrite calls_of_fan_out by exact Hk. cbn beta.
    assert (recorded_bits [WriteBytes (slice bits (8 * k) 8)]
            = (fun j => bit_at bits (64 * k + j)) <$> seq 0 64) as Hbits.
    { change (recorded_bits [WriteBytes (slice bits (8 * k) 8)])
        with (bits_of_bytes (slice bits (8 * k) 8) ++ []).
      rewrite app_nil_r, bits_of_bytes_slice by lia.
      apply list_fmap_ext. intros _ j _. f_equal. lia. }
    split; [reflexivity|]. split; [exact Hbits|].
    intros Hone. eapply eq_trans in Hone; [|symmetry; exact Hbits].
    apply (f_equal length) in Hone.
    rewrite length_fmap, length_seq in Hone. discriminate.
  - split; [|discriminate].
    split; [intros [? [=]]|contradiction].
Qed.

Lemma ptb64_batch_write_bit_reads_eight_bytes_per_writer_witness :
  calls_of 1 ((fun k => (k, WriteBytes (slice example_row (8 * k) 8))) <$> seq 0 2)
  = [WriteBytes (slice example_row 8 8)].
Proof.
  refine (proj1 (proj2 (ptb64_batch_write_bit_reads_eight_bytes_per_writer
                          TRANSPOSED_PACKED_64 2 example_row) _ _ 1 _)).
  - vm_compute. reflexivity.
  - lia.
Defined.

(** * The bulk entry point, packed branch *)

Lemma packed_group_bit (t : simd_bit_table) (k w b i : nat) :
  8 * k + num_minor_u8_padded t * w + 8 <= length (data t) ->
  b < 8 -> i < 8 ->
  (fun x => get_bit x i) <$> packed_group t k w !! b
  = Some (table_bit t w (64 * k + 8 * b + i)).
Proof.
  intros Hin Hb Hi. unfold packed_group, table_bit.
  rewrite lookup_slice by exact Hb.
  replace (64 * k + 8 * b + i) with (i + (8 * k + b) * 8) by lia.
  rewrite Nat.div_add, Nat.Div0.mod_add by lia.
  rewrite (Nat.div_small i), (Nat.mod_small i) by lia.
  replace (w * num_minor_u8_padded t + (0 + (8 * k + b)))
    with (8 * k + num_minor_u8_padded t * w + b) by lia.
  destruct (lookup_lt_is_Some_2 (data t) (8 * k + num_minor_u8_padded t * w + b))
    as [x Hx]; [lia|].
  rewrite Hx. reflexivity.
Qed.

(** C2 (as amended).  Under the packed format, on a table that holds 64
    minor bits for each of the [n] writers and [m = num_major_u64] major
    rows, [batch_write_bytes] issues to writer [k] alone, for each
    [w < m] in ascending order, one [write_bytes] with the 8 bytes at buffer
    offset [8k + stride*w], verbatim; bit [i] of byte [b] of that group is
    the table bit at major index [w] and minor index [64k + 8b + i]. *)
Theorem ptb64_batch_write_bytes_groups
    {SampleFormat : Type} `{EqDecision SampleFormat}
    (SAMPLE_FORMAT_PTB64 : SampleFormat)
    (n : nat) (table : simd_bit_table) (num_major_u64 : nat) :
  table_wf table ->
  8 * n <= num_minor_u8_padded table ->
  num_major_u64 <= num_major_bits_padded table ->
  exists cs,
    batch_write_bytes_calls SAMPLE_FORMAT_PTB64 SAMPLE_FORMAT_PTB64 n table
      num_major_u64 = Some cs
    /\ forall k, k < n ->
         calls_of k cs
         = (fun w => WriteBytes
                       (slice (data table)
                          (8 * k + num_minor_u8_padded table * w) 8))
             <$> seq 0 num_major_u64
         /\ forall w, w < num_major_u64 ->
              length (packed_group table k w) = 8
              /\ forall b i, b < 8 -> i < 8 ->
                   (fun x => get_bit x i) <$> packed_group table k w !! b
                   = Some (table_bit table w (64 * k + 8 * b + i)).
Proof.
  intros Hwf Hn Hm. eexists. split.
  - unfold batch_write_bytes_calls. rewrite decide_True by reflexivity.
    apply batch_write_bytes_ptb64_inside; assumption.
  - intros k Hk. rewrite calls_of_fan_out by exact Hk.
    split; [reflexivity|]. intros w Hw.
    destruct (packed_group_inside table n num_major_u64 k w)
      as (_ & _ & Hin); [assumption..|].
    split.
    + apply length_slice. lia.
    + intros b i Hb Hi. apply packed_group_bit; assumption.
Qed.

Lemma example_table_wf : table_wf example_table.
Proof. split; vm_compute; reflexivity. Defined.

Lemma ptb64_batch_write_bytes_groups_witness :
  exists cs,
    batch_write_bytes_calls TRANSPOSED_PACKED_64 TRANSPOSED_PACKED_64 2
      example_table 3 = Some cs
    /\ calls_of 1 cs
       = (fun w => WriteBytes (slice (data example_table) (8 * 1 + 16 * w) 8))
           <$> seq 0 3.
Proof.
  destruct (ptb64_batch_write_bytes_groups TRANSPOSED_PACKED_64 2
              example_table 3 example_table_wf
              ltac:(vm_compute; lia) ltac:(vm_compute; lia))
    as (cs & Hcs & Hk).
  exists cs. split; [exact Hcs|]. exact (proj1 (Hk 1 ltac:(lia))).
Defined.

(** C2, counterexample.  With two writers the 8 bytes at offset 0 (k = 0,
    w = 0) are not delivered to every writer of the range [0, 8): writer 1
    never receives them. *)
Lemma ptb64_batch_write_bytes_group_not_for_eight_writers :
  ~ (forall cs,
       batch_write_bytes_calls TRANSPOSED_PACKED_64 TRANSPOSED_PACKED_64 2
         example_table 1 = Some cs ->
       forall k w j, k < 2 -> w < 1 -> 8 * k <= j < 8 * k + 8 -> j < 2 ->
         WriteBytes (slice (data example_table)
                       (8 * k + num_minor_u8_padded example_table * w) 8)
         ∈ calls_of j cs).
Proof.
  intros Hclaim.
  specialize (Hclaim _ eq_refl 0 0 1 ltac:(lia) ltac:(lia) ltac:(lia) ltac:(lia)).
  vm_compute in Hclaim.
  apply list_elem_of_singleton in Hclaim. discriminate.
Qed.

(** * The bulk entry point, transposing branch *)

(** C6.  Under the SERIAL format (any format other than the packed one), on
    a table that holds a minor index for each of the [n] writers and
    [64 * num_major_u64] major rows, [batch_write_bytes] transposes the table
    and issues to each writer [k], in ascending order, exactly one
    [write_bytes] with the first [num_major_u64 * 8] bytes of row [k] of the
    transposed table; those [num_major_u64 * 64] bits are the table bits at
    minor index [k]. *)
Theorem serial_batch_write_bytes_runs
    {SampleFormat : Type} `{EqDecision SampleFormat}
    (SAMPLE_FORMAT_PTB64 fmt : SampleFormat)
    (n : nat) (table : simd_bit_table) (num_major_u64 : nat) :
  fmt <> SAMPLE_FORMAT_PTB64 ->
  table_wf table ->
  n <= num_minor_bits_padded table ->
  num_major_u64 <= num_major_u64_padded table ->
  batch_write_bytes_calls SAMPLE_FORMAT_PTB64 fmt n table num_major_u64
  = Some ((fun k =>
             (k, WriteBytes
                   (slice (data (transposed table))
                      (row_u8 (transposed table) k) (num_major_u64 * 8))))
            <$> seq 0 n)
  /\ forall k, k < n ->
       length (transposed_run table num_major_u64 k) = num_major_u64 * 8
       /\ bits_of_bytes (transposed_run table num_major_u64 k)
          = (fun j => table_bit table j k) <$> seq 0 (num_major_u64 * 64).
Proof.
  intros Hfmt Hwf Hn Hm. split.
  - unfold batch_write_bytes_calls. rewrite decide_False by exact Hfmt.
    rewrite batch_write_bytes_serial_inside by assumption.
    rewrite fan_out_singleton. reflexivity.
  - intros k Hk.
    destruct (transposed_run_inside table n num_major_u64 k)
      as (_ & Hin); [assumption..|].
    split.
    + apply length_slice, Hin.
    + rewrite transposed_run_bits by (lia || assumption).
      f_equal. f_equal. lia.
Qed.

Lemma serial_batch_write_bytes_runs_witness :
  batch_write_bytes_calls TRANSPOSED_PACKED_64 SERIAL 2 example_table 1
  = Some ((fun k =>
             (k, WriteBytes
                   (slice (data (transposed example_table))
                      (row_u8 (transposed example_table) k) (1 * 8))))
            <$> seq 0 2).
Proof.
  exact (proj1 (serial_batch_write_bytes_runs TRANSPOSED_PACKED_64 SERIAL 2
                  example_table 1 ltac:(discriminate) example_table_wf
                  ltac:(vm_compute; lia) ltac:(vm_compute; lia))).
Defined.

(** * Format dispatch *)

(** C9.  The dispatch is a test on equality with [SAMPLE_FORMAT_PTB64], not
    a match on two variants: for every other value [fmt] of [output_format],
    whatever the enumeration holds, [batch_write_bit] does the per-bit
    fan-out (one [write_bit] of bit [k] to each writer [k], ascending, and an
    out-of-bounds read when the row holds fewer than [n] bits), and
    [batch_write_bytes] transposes and appends in bulk (one [write_bytes] to
    each writer [k] with the first [num_major_u64 * 8] bytes of row [k] of
    the transposed table, whose bits are the table bits at minor index [k]);
    and any two such values behave alike on every input. *)
Theorem format_dispatch_two_way
    {SampleFormat : Type} `{EqDecision SampleFormat}
    (SAMPLE_FORMAT_PTB64 fmt : SampleFormat) (n : nat) :
  fmt <> SAMPLE_FORMAT_PTB64 ->
  (forall bits,
     batch_write_bit_calls SAMPLE_FORMAT_PTB64 fmt n bits
     = if decide (n <= 8 * length bits)
       then Some ((fun k => (k, WriteBit (bit_at bits k))) <$> seq 0 n)
       else None)
  /\ (forall table num_major_u64,
        table_wf table ->
        n <= num_minor_bits_padded table ->
        num_major_u64 <= num_major_u64_padded table ->
        batch_write_bytes_calls SAMPLE_FORMAT_PTB64 fmt n table num_major_u64
        = Some ((fun k =>
                   (k, WriteBytes (transposed_run table num_major_u64 k)))
                  <$> seq 0 n)
        /\ forall k, k < n ->
             bits_of_bytes (transposed_run table num_major_u64 k)
             = (fun j => table_bit table j k) <$> seq 0 (64 * num_major_u64))
  /\ (forall fmt', fmt' <> SAMPLE_FORMAT_PTB64 ->
        (forall bits,
           batch_write_bit_calls SAMPLE_FORMAT_PTB64 fmt n bits
           = batch_write_bit_calls SAMPLE_FORMAT_PTB64 fmt' n bits)
        /\ (forall table num_major_u64,
              batch_write_bytes_calls SAMPLE_FORMAT_PTB64 fmt n table
                num_major_u64
              = batch_write_bytes_calls SAMPLE_FORMAT_PTB64 fmt' n table
                  num_major_u64)).
Proof.
  intros Hfmt. split; [|split].
  - intros bits. unfold batch_write_bit_calls.
    rewrite decide_False by exact Hfmt.
    destruct (decide (n <= 8 * length bits)) as [Hin|Hout].
    + apply batch_write_bit_serial_inside, Hin.
    + apply batch_write_bit_serial_outside. lia.
  - intros table num_major_u64 Hwf Hn Hm. split.
    + unfold batch_write_bytes_calls. rewrite decide_False by exact Hfmt.
      rewrite batch_write_bytes_serial_inside by assumption.
      rewrite fan_out_singleton. reflexivity.
    + intros k Hk. apply transposed_run_bits; [lia|exact Hm].
  - intros fmt' Hfmt'. split.
    + intros bits. unfold batch_write_bit_calls.
      rewrite !decide_False by assumption. reflexivity.
    + intros table num_major_u64. unfold batch_write_bytes_calls.
      rewrite !decide_False by assumption. reflexivity.
Qed.

(** The enumerators taken as numbers: 2 for the packed format, 5 for a
    format that is neither the packed one nor the first one. *)
Lemma format_dispatch_two_way_witness :
  batch_write_bit_calls (SampleFormat := nat) 2 5 3 example_row
  = Some [(0, WriteBit true); (1, WriteBit false); (2, WriteBit false)]
  /\ batch_write_bytes_calls (SampleFormat := nat) 2 5 2 example_table 1
     = Some ((fun k => (k, WriteBytes (transposed_run example_table 1 k)))
               <$> seq 0 2).
Proof.
  destruct (format_dispatch_two_way (SampleFormat := nat) 2 5 3
              ltac:(discriminate)) as (Hbit & _ & _).
  destruct (format_dispatch_two_way (SampleFormat := nat) 2 5 2
              ltac:(discriminate)) as (_ & Hbytes & _).
  split.
  - apply Hbit.
  - apply (Hbytes example_table 1 example_table_wf);
      vm_compute; lia.
Defined.

(** * Sample counts *)

Lemma sample_count_app (cs1 cs2 : list call) :
  sample_count (cs1 ++ cs2) = sample_count cs1 + sample_count cs2.
Proof.
  unfold sample_count, recorded_bits. rewrite bind_app, length_app. reflexivity.
Qed.

Lemma sample_count_write_bit (b : bool) : sample_count [WriteBit b] = 1.
Proof. reflexivity. Qed.

Lemma sample_count_write_bytes (bs : list byte) :
  sample_count [WriteBytes bs] = 8 * length bs.
Proof.
  change (sample_count [WriteBytes bs]) with (length (bits_of_bytes bs ++ [])).
  rewrite app_nil_r. apply length_bits_of_bytes.
Qed.

Lemma run_calls_log (cs : list call) (w : list call) :
  (run_calls cs w).1 = w ++ cs.
Proof.
  revert w. induction cs as [|c cs IH]; intros w.
  - cbn. rewrite app_nil_r. reflexivity.
  - cbn [run_calls].
    assert (handle c w = (w ++ [c], [])) as -> by (destruct c; reflexivity).
    specialize (IH (w ++ [c])).
    destruct (run_calls cs (w ++ [c])) as [w' bs]. cbn [fst] in *.
    rewrite IH, <- app_assoc. reflexivity.
Qed.

(** One more group of 64 bits gives one more sample to each of the 64
    streams of a writer object; when what was recorded is made of whole
    groups, that sample is the bit of the stream in the new group. *)
Lemma every_64th_app_group (off : nat) (rb G : list bool) :
  length G = 64 -> off < 64 ->
  length (every_64th off (rb ++ G)) = length (every_64th off rb) + 1
  /\ (length rb mod 64 = 0 ->
      every_64th off (rb ++ G)
      = every_64th off rb ++ [default false (G !! off)]).
Proof.
  intros HG Hoff. unfold every_64th.
  assert (length (rb ++ G) / 64 = length rb / 64 + 1) as Hq.
  { rewrite length_app, HG.
    replace (length rb + 64) with (length rb + 1 * 64) by lia.
    apply Nat.div_add. lia. }
  rewrite Hq. split.
  - rewrite !length_fmap, !length_seq. reflexivity.
  - intros Hal.
    pose proof (Nat.div_mod_eq (length rb) 64) as Hlen.
    rewrite seq_app, fmap_app. f_equal.
    + apply list.Forall_fmap_ext_1, list.Forall_forall. intros j Hj.
      apply elem_of_seq in Hj. rewrite lookup_app_l by lia. reflexivity.
    + cbn [seq fmap list_fmap]. rewrite lookup_app_r by lia.
      do 3 f_equal. lia.
Qed.

Lemma recorded_bits_snoc (w : list call) (c : call) :
  recorded_bits (w ++ [c]) = recorded_bits w ++ call_bits c.
Proof.
  unfold recorded_bits. rewrite bind_app. f_equal.
  change ([c] ≫= call_bits) with (call_bits c ++ []). apply app_nil_r.
Qed.

(** C4.  With writers that record the calls they receive and a vector that
    holds the writer objects of [N] sample streams, the specification's
    writers (one object per stream, or one per 64 consecutive streams under
    the packed format), a call to
    [batch_write_bit] on a row that is large enough succeeds and makes the
    recorded sample count of every stream grow by exactly one, under either
    format; when the objects have recorded whole groups so far (as they do
    when fed by the two routines only), the new sample of stream [s] is bit
    [s] of the row. *)
Theorem batch_write_bit_stream_sample_count
    {SampleFormat : Type} `{EqDecision SampleFormat}
    (SAMPLE_FORMAT_PTB64 : SampleFormat)
    (self : MeasureRecordBatchWriter SampleFormat (list call))
    (bits : simd_bits_range_ref) (N : nat) :
  length (writers self)
  = num_writer_objects
      (bool_decide (output_format self = SAMPLE_FORMAT_PTB64)) N ->
  (if decide (output_format self = SAMPLE_FORMAT_PTB64)
   then 8 * length (writers self) <= length bits
   else length (writers self) <= 8 * length bits) ->
  exists self',
    batch_write_bit SAMPLE_FORMAT_PTB64 self bits = Some self'
    /\ forall s, s < N ->
         length (stream_samples
                   (bool_decide (output_format self = SAMPLE_FORMAT_PTB64))
                   (writers self') s)
         = length (stream_samples
                     (bool_decide (output_format self = SAMPLE_FORMAT_PTB64))
                     (writers self) s) + 1
         /\ (Forall (fun w => sample_count w mod 64 = 0) (writers self) ->
             stream_samples
               (bool_decide (output_format self = SAMPLE_FORMAT_PTB64))
               (writers self') s
             = stream_samples
                 (bool_decide (output_format self = SAMPLE_FORMAT_PTB64))
                 (writers self) s ++ [bit_at bits s]).
Proof.
  intros Hsize Hin. unfold batch_write_bit.
  set (n := length (writers self)) in *.
  assert (exists g,
            batch_write_bit_calls SAMPLE_FORMAT_PTB64 (output_format self) n bits
            = Some (fan_out n (fun k => [g k]))
            /\ forall k,
                 g k = if decide (output_format self = SAMPLE_FORMAT_PTB64)
                       then WriteBytes (slice bits (8 * k) 8)
                       else WriteBit (bit_at bits k)) as (g & -> & Hg).
  { destruct (decide (output_format self = SAMPLE_FORMAT_PTB64)) as [->|Hne].
    - exists (fun k => WriteBytes (slice bits (8 * k) 8)). split.
      + rewrite batch_write_bit_ptb64_calls, decide_True by exact Hin.
        reflexivity.
      + reflexivity.
    - exists (fun k => WriteBit (bit_at bits k)). split.
      + unfold batch_write_bit_calls. rewrite decide_False by exact Hne.
        rewrite batch_write_bit_serial_inside by exact Hin.
        rewrite fan_out_singleton. reflexivity.
      + reflexivity. }
  cbn [mbind option_bind].
  destruct (perform_is_Some (fan_out n (fun k => [g k])) self)
    as [self' Hself']; [apply fan_out_indices|].
  exists self'. split; [exact Hself'|].
  assert (forall k w, writers self !! k = Some w ->
            writers self' !! k = Some (w ++ [g k])) as Hnew.
  { intros k w Hw.
    assert (k < n) as Hk by (eapply lookup_lt_Some; exact Hw).
    rewrite (perform_writers _ _ _ k Hself'), Hw.
    cbn [fmap option_fmap option_map].
    rewrite calls_of_fan_out, run_calls_log by exact Hk. reflexivity. }
  intros s Hs. unfold stream_samples.
  destruct (decide (output_format self = SAMPLE_FORMAT_PTB64)) as [Heq|Hne].
  - rewrite bool_decide_eq_true_2 in * by exact Heq.
    cbn [num_writer_objects] in Hsize.
    pose proof (stream_element_lt N s Hs) as Hel.
    pose proof (Nat.mod_upper_bound s 64 ltac:(lia)) as Hoff.
    destruct (lookup_lt_is_Some_2 (writers self) (s / 64)) as [w Hw];
      [fold n; lia|].
    rewrite (Hnew _ w Hw), Hw, Hg. cbn [default from_option id].
    rewrite recorded_bits_snoc. cbn [call_bits].
    rewrite bits_of_bytes_slice by lia.
    destruct (every_64th_app_group (s mod 64) (recorded_bits w)
                ((fun j => bit_at bits (8 * (8 * (s / 64)) + j))
                   <$> seq 0 (8 * 8))) as [Hcount Hcontent];
      [rewrite length_fmap, length_seq; reflexivity|exact Hoff|].
    split; [exact Hcount|]. intros Hal.
    rewrite Hcontent.
    + rewrite list_lookup_fmap, lookup_seq_lt by lia.
      cbn [fmap option_fmap option_map default from_option id].
      replace (8 * (8 * (s / 64)) + (0 + s mod 64)) with s
        by (pose proof (stream_position s); lia).
      reflexivity.
    + apply (proj1 (list.Forall_forall _ _) Hal w).
      apply list_elem_of_lookup. exists (s / 64). exact Hw.
  - rewrite bool_decide_eq_false_2 in * by exact Hne.
    cbn [num_writer_objects] in Hsize.
    destruct (lookup_lt_is_Some_2 (writers self) s) as [w Hw];
      [fold n; lia|].
    rewrite (Hnew _ w Hw), Hw, Hg. cbn [default from_option id].
    rewrite recorded_bits_snoc. cbn [call_bits].
    split; [|reflexivity]. rewrite length_app. reflexivity.
Qed.

Lemma batch_write_bit_stream_sample_count_witness :
  exists self',
    batch_write_bit TRANSPOSED_PACKED_64
      (construct [] [[]; []] TRANSPOSED_PACKED_64) example_row = Some self'
    /\ forall s, s < 100 ->
         length (stream_samples true (writers self') s)
         = length (stream_samples true [[]; []] s) + 1
         /\ (Forall (fun w => sample_count w mod 64 = 0) [[]; []] ->
             stream_samples true (writers self') s
             = stream_samples true [[]; []] s ++ [bit_at example_row s]).
Proof.
  refine (batch_write_bit_stream_sample_count TRANSPOSED_PACKED_64
            (construct [] [[]; []] TRANSPOSED_PACKED_64) example_row 100 _ _).
  - vm_compute. reflexivity.
  - vm_compute. lia.
Defined.

(** * The empty bulk call *)

Section EmptyBulk.

Context {SampleFormat : Type} `{EqDecision SampleFormat}.
Variable SAMPLE_FORMAT_PTB64 : SampleFormat.
Context {W : Type} `{MeasureRecordWriter W}.

Lemma invoke_noop (k : nat) (c : call) (w : W)
    (self : MeasureRecordBatchWriter SampleFormat W) :
  writers self !! k = Some w -> handle c w = (w, []) ->
  invoke (k, c) self = Some self.
Proof.
  intros Hw Hc. unfold invoke. cbn [fst snd]. rewrite Hw.
  cbn [mbind option_bind]. rewrite Hc. f_equal.
  destruct self as [fmt o tf ws]. cbn in Hw.
  destruct k as [|j]; cbn; rewrite (list_insert_id _ _ _ Hw).
  - rewrite app_nil_r. reflexivity.
  - rewrite list_alter_id by (intros f; apply app_nil_r). reflexivity.
Qed.

Lemma perform_noop (cs : list dispatch)
    (self : MeasureRecordBatchWriter SampleFormat W) :
  Forall (fun d : dispatch =>
            d.1 < length (writers self) /\ forall w, handle d.2 w = (w, []))
    cs ->
  perform cs self = Some self.
Proof.
  induction cs as [|[k c] cs IH]; intros Hall; [reflexivity|].
  apply list.Forall_cons in Hall as [[Hk Hc] Hall]. cbn [fst snd] in Hk, Hc.
  destruct (lookup_lt_is_Some_2 _ _ Hk) as [w Hw].
  cbn [perform]. rewrite (invoke_noop k c w self Hw (Hc w)).
  cbn [mbind option_bind]. apply IH, Hall.
Qed.

Lemma batch_write_bytes_calls_zero (fmt : SampleFormat) (n : nat)
    (table : simd_bit_table) :
  batch_write_bytes_calls SAMPLE_FORMAT_PTB64 fmt n table 0
  = Some (if decide (fmt = SAMPLE_FORMAT_PTB64) then []
          else (fun k => (k, WriteBytes [])) <$> seq 0 n).
Proof.
  unfold batch_write_bytes_calls.
  destruct (decide (fmt = SAMPLE_FORMAT_PTB64)) as [_|_].
  - unfold batch_write_bytes_ptb64.
    rewrite (for_loop_Some _ _ _ (fun _ => [])) by reflexivity.
    f_equal. induction (seq 0 n) as [|k l IH]; [reflexivity|].
    rewrite bind_cons. exact IH.
  - unfold batch_write_bytes_serial.
    rewrite (for_loop_Some _ _ _ (fun k => [(k, WriteBytes [])])).
    + rewrite (bind_singleton_fmap (fun k => (k, WriteBytes []))).
      reflexivity.
    + intros k _. change (size_t_mul 0 8) with 0.
      rewrite read_range_inside_empty. reflexivity.
Qed.

End EmptyBulk.

(** C8 (as amended).  For every table, [batch_write_bytes(table, 0)] hands
    no byte to any writer.  Under the packed format it issues no call at all
    and leaves the object as it was.  Under any other format it still issues
    one [write_bytes] of an empty range to each writer, in ascending order;
    the object is left as it was when the writers do nothing on an empty
    append. *)
Theorem batch_write_bytes_zero_is_noop
    {SampleFormat : Type} `{EqDecision SampleFormat}
    (SAMPLE_FORMAT_PTB64 : SampleFormat)
    {W : Type} `{MeasureRecordWriter W}
    (self : MeasureRecordBatchWriter SampleFormat W) (table : simd_bit_table) :
  batch_write_bytes_calls SAMPLE_FORMAT_PTB64 (output_format self)
    (length (writers self)) table 0
  = Some (if decide (output_format self = SAMPLE_FORMAT_PTB64) then []
          else (fun k => (k, WriteBytes [])) <$> seq 0 (length (writers self)))
  /\ (output_format self = SAMPLE_FORMAT_PTB64
      \/ (forall w : W, writer_write_bytes [] w = (w, [])) ->
      batch_write_bytes SAMPLE_FORMAT_PTB64 self table 0 = Some self).
Proof.
  unfold batch_write_bytes. rewrite batch_write_bytes_calls_zero.
  split; [reflexivity|].
  intros Hlaw. cbn [mbind option_bind]. apply perform_noop.
  destruct (decide (output_format self = SAMPLE_FORMAT_PTB64)) as [Heq|Hne];
    [constructor|].
  destruct Hlaw as [Heq|Hlaw]; [contradiction|].
  apply list.Forall_forall. intros d Hd.
  apply list_elem_of_fmap in Hd as (k & -> & Hk).
  apply elem_of_seq in Hk. cbn [fst snd]. split; [lia|].
  intros w. apply Hlaw.
Qed.

Lemma batch_write_bytes_zero_is_noop_witness :
  batch_write_bytes TRANSPOSED_PACKED_64
    (construct (W := unit) [Byte.x01] [tt; tt; tt] SERIAL) example_table 0
  = Some (construct [Byte.x01] [tt; tt; tt] SERIAL).
Proof.
  refine (proj2 (batch_write_bytes_zero_is_noop TRANSPOSED_PACKED_64
                   (construct (W := unit) [Byte.x01] [tt; tt; tt] SERIAL)
                   example_table) _).
  right. intros w. reflexivity.
Defined.

(** C8, counterexample.  Under the SERIAL format with one writer,
    [batch_write_bytes(table, 0)] does perform a write, an empty
    [write_bytes] to writer 0, and a writer that records the calls it
    receives is not in the state it was in. *)
Lemma batch_write_bytes_zero_still_calls_writers :
  ~ (batch_write_bytes_calls TRANSPOSED_PACKED_64 SERIAL 1 example_table 0
     = Some [])
  /\ ~ (batch_write_bytes TRANSPOSED_PACKED_64
          (construct (W := list call) [] [[]] SERIAL) example_table 0
        = Some (construct [] [[]] SERIAL)).
Proof.
  split; intros Hclaim; vm_compute in Hclaim; discriminate.
Qed.

(** * Finalisation: the output is the concatenation of the writers' streams *)

Lemma for_loop_Forall (Q : nat -> dispatch -> Prop) (n k0 : nat)
    (body : nat -> option (list dispatch)) (cs : list dispatch) :
  (forall i c, k0 <= i < k0 + n -> body i = Some c -> Forall (Q i) c) ->
  for_loop n k0 body = Some cs ->
  Forall (fun d => exists i, k0 <= i < k0 + n /\ Q i d) cs.
Proof.
  revert k0 cs. induction n as [|n IH]; intros k0 cs Hbody Hloop.
  - injection Hloop as <-. constructor.
  - cbn [for_loop] in Hloop.
    destruct (body k0) as [c|] eqn:Hc; [|discriminate].
    cbn [mbind option_bind] in Hloop.
    destruct (for_loop n (S k0) body) as [rest|] eqn:Hrest; [|discriminate].
    injection Hloop as <-. apply Forall_app. split.
    + eapply list.Forall_impl; [apply (Hbody k0 c); [lia|exact Hc]|].
      intros d Hd. exists k0. split; [lia|exact Hd].
    + eapply list.Forall_impl; [apply (IH (S k0) rest); [|exact Hrest]|].
      * intros i c' Hi. apply Hbody. lia.
      * intros d (i & Hi & Hd). exists i. split; [lia|exact Hd].
Qed.

Section Indices.

Context {SampleFormat : Type} `{EqDecision SampleFormat}.
Variable SAMPLE_FORMAT_PTB64 : SampleFormat.

(** Every call of an operation goes to a writer of the vector. *)
Lemma operation_calls_indices (fmt : SampleFormat) (n : nat) (o : operation)
    (cs : list dispatch) :
  operation_calls SAMPLE_FORMAT_PTB64 fmt n o = Some cs ->
  Forall (fun d : dispatch => d.1 < n) cs.
Proof.
  assert (forall (body : nat -> option (list dispatch)) cs',
            (forall i c, body i = Some c -> Forall (fun d : dispatch => d.1 = i) c) ->
            for_loop n 0 body = Some cs' ->
            Forall (fun d : dispatch => d.1 < n) cs') as Hloop.
  { intros body cs' Hbody Hfor.
    eapply list.Forall_impl;
      [apply (for_loop_Forall (fun i d => d.1 = i) n 0 body cs'); [|exact Hfor]|].
    - intros i c _. apply Hbody.
    - intros d (i & Hi & ->). lia. }
  destruct o as [t|bits|table m]; cbn [operation_calls].
  - intros [= <-]. unfold begin_result_type_calls.
    apply list.Forall_forall. intros d Hd.
    apply list_elem_of_fmap in Hd as (k & -> & Hk).
    apply elem_of_seq in Hk. cbn. lia.
  - unfold batch_write_bit_calls.
    destruct (decide (fmt = SAMPLE_FORMAT_PTB64)) as [->|Hne].
    + pose proof (batch_write_bit_ptb64_calls SAMPLE_FORMAT_PTB64 n bits) as Hc.
      unfold batch_write_bit_calls in Hc.
      rewrite decide_True in Hc by reflexivity. rewrite Hc.
      destruct (decide (8 * n <= length bits)); [|discriminate].
      intros [= <-]. apply fan_out_indices.
    + apply Hloop. intros i c Hc.
      destruct (bits_get bits i); [|discriminate].
      injection Hc as <-. repeat constructor.
  - unfold batch_write_bytes_calls.
    destruct (decide (fmt = SAMPLE_FORMAT_PTB64)) as [->|Hne].
    + apply Hloop. intros k c Hc.
      eapply list.Forall_impl;
        [eapply (for_loop_Forall (fun _ d => d.1 = k) m 0); [|exact Hc]|].
      * intros w c' _ Hc'. cbv zeta beta in Hc'.
        destruct (read_range _ _ _); [|discriminate].
        injection Hc' as <-. repeat constructor.
      * intros d (_ & _ & Hd). exact Hd.
    + apply Hloop. intros k c Hc. cbv zeta in Hc.
      destruct (read_range _ _ _); [|discriminate].
      injection Hc as <-. repeat constructor.
Qed.

Lemma operations_calls_indices (fmt : SampleFormat) (n : nat)
    (os : list operation) (cs : list dispatch) :
  operations_calls SAMPLE_FORMAT_PTB64 fmt n os = Some cs ->
  Forall (fun d : dispatch => d.1 < n) cs.
Proof.
  revert cs. induction os as [|o os IH]; intros cs Hcs.
  - injection Hcs as <-. constructor.
  - cbn [operations_calls] in Hcs.
    destruct (operation_calls _ fmt n o) as [c|] eqn:Hc; [|discriminate].
    cbn [mbind option_bind] in Hcs.
    destruct (operations_calls _ fmt n os) as [rest|]; [|discriminate].
    injection Hcs as <-. apply Forall_app. split.
    + eapply operation_calls_indices, Hc.
    + apply IH. reflexivity.
Qed.

End Indices.

Section Refinement.

Context {SampleFormat : Type} `{EqDecision SampleFormat}.
Variable SAMPLE_FORMAT_PTB64 : SampleFormat.
Context {W : Type} `{MeasureRecordWriter W}.
Variable out0 : list byte.

Abbreviation Self := (MeasureRecordBatchWriter SampleFormat W).
Abbreviation Ref := (Reference SampleFormat W).

Lemma invoke_matches (d : dispatch) (self : Self) (r : Ref) :
  matches_reference out0 self r ->
  option_Forall2 (matches_reference out0) (invoke d self) (ref_invoke d r).
Proof.
  intros (Hfmt & Hws & b0 & Hbuf & Hout).
  unfold invoke, ref_invoke. rewrite <- Hws.
  destruct (writers self !! d.1) as [w|]; [|constructor].
  cbn [mbind option_bind]. destruct (handle d.2 w) as [w' bs].
  constructor. destruct self as [fmt o tf ws], d as [[|j] c];
    cbn in *; subst; rewrite Hbuf; cbn.
  - repeat split. exists (b0 ++ bs). split; [reflexivity|].
    cbn. rewrite app_assoc. reflexivity.
  - repeat split. exists b0. split; reflexivity.
Qed.

Lemma perform_matches (cs : list dispatch) (self : Self) (r : Ref) :
  matches_reference out0 self r ->
  option_Forall2 (matches_reference out0) (perform cs self) (ref_perform cs r).
Proof.
  revert self r. induction cs as [|d cs IH]; intros self r Hm.
  - constructor. exact Hm.
  - cbn [perform ref_perform].
    destruct (invoke_matches d self r Hm) as [self1 r1 Hm1|];
      [|constructor].
    cbn [mbind option_bind]. apply IH, Hm1.
Qed.

Lemma run_operation_calls (self : Self) (o : operation) :
  run_operation SAMPLE_FORMAT_PTB64 self o
  = cs ← operation_calls SAMPLE_FORMAT_PTB64 (output_format self)
           (length (writers self)) o;
    perform cs self.
Proof. destruct o; reflexivity. Qed.

Lemma run_operations_matches (os : list operation) (self : Self) (r : Ref) :
  matches_reference out0 self r ->
  option_Forall2 (matches_reference out0)
    (run_operations SAMPLE_FORMAT_PTB64 os self)
    (ref_run_operations SAMPLE_FORMAT_PTB64 os r).
Proof.
  revert self r. induction os as [|o os IH]; intros self r Hm.
  - constructor. exact Hm.
  - cbn [run_operations ref_run_operations].
    rewrite run_operation_calls. unfold ref_run_operation.
    destruct Hm as (Hfmt & Hws & Hrest). rewrite <- Hfmt, <- Hws.
    destruct (operation_calls _ _ _ o) as [cs|]; [|constructor].
    cbn [mbind option_bind].
    destruct (perform_matches cs self r) as [self1 r1 Hm1|];
      [by repeat split| |constructor].
    cbn [mbind option_bind]. apply IH, Hm1.
Qed.

Lemma write_end_matches (self : Self) (r : Ref) :
  matches_reference out0 self r ->
  out <$> write_end self = app out0 <$> ref_write_end r.
Proof.
  intros Hm. unfold write_end, ref_write_end.
  destruct Hm as (Hfmt & Hws & Hrest). rewrite <- Hws.
  destruct (perform_matches (write_end_calls (length (writers self))) self r)
    as [self1 r1 (_ & _ & b0 & Hbuf & Hout)|];
    [by repeat split| |reflexivity].
  cbn. rewrite Hbuf, Hout. cbn [concat]. rewrite app_assoc. reflexivity.
Qed.

Lemma construct_matches (ws : list W) (fmt : SampleFormat) :
  ws <> [] ->
  matches_reference out0 (construct out0 ws fmt) (ref_construct ws fmt).
Proof.
  intros Hne. repeat split. exists []. cbn. split.
  - destruct ws as [|w ws]; [contradiction|].
    cbn. rewrite Nat.sub_0_r. reflexivity.
  - symmetry. apply app_nil_r.
Qed.

(** *** The streams of the reference *)

Lemma ref_invoke_frame (d : dispatch) (r r' : Ref) :
  ref_invoke d r = Some r' ->
  ref_format r' = ref_format r
  /\ length (ref_writers r') = length (ref_writers r)
  /\ length (buffers r') = length (buffers r).
Proof.
  unfold ref_invoke. intros Hinv.
  destruct (ref_writers r !! d.1) as [w|]; [|discriminate].
  cbn [mbind option_bind] in Hinv. destruct (handle d.2 w) as [w' bs].
  injection Hinv as <-. cbn. rewrite length_insert, length_alter. auto.
Qed.

Lemma ref_perform_frame (cs : list dispatch) (r r' : Ref) :
  ref_perform cs r = Some r' ->
  ref_format r' = ref_format r
  /\ length (ref_writers r') = length (ref_writers r)
  /\ length (buffers r') = length (buffers r).
Proof.
  revert r. induction cs as [|d cs IH]; intros r Hp.
  - injection Hp as <-. auto.
  - cbn [ref_perform] in Hp.
    destruct (ref_invoke d r) as [r1|] eqn:Hinv; [|discriminate].
    cbn [mbind option_bind] in Hp.
    destruct (IH _ Hp) as (-> & -> & ->).
    exact (ref_invoke_frame _ _ _ Hinv).
Qed.

Lemma ref_perform_app (cs1 cs2 : list dispatch) (r : Ref) :
  ref_perform (cs1 ++ cs2) r = ref_perform cs1 r ≫= ref_perform cs2.
Proof.
  revert r. induction cs1 as [|d cs1 IH]; intros r; [reflexivity|].
  cbn [app ref_perform]. destruct (ref_invoke d r) as [r'|]; [|reflexivity].
  cbn [mbind option_bind]. apply IH.
Qed.

Lemma ref_perform_is_Some (cs : list dispatch) (r : Ref) :
  Forall (fun d : dispatch => d.1 < length (ref_writers r)) cs ->
  is_Some (ref_perform cs r).
Proof.
  revert r. induction cs as [|d cs IH]; intros r Hall; [by eexists|].
  apply list.Forall_cons in Hall as [Hd Hall]. cbn [ref_perform].
  destruct (lookup_lt_is_Some_2 _ _ Hd) as [w Hw].
  destruct (ref_invoke d r) as [r1|] eqn:Hinv.
  - cbn [mbind option_bind]. apply IH.
    apply ref_invoke_frame in Hinv as (_ & -> & _). exact Hall.
  - unfold ref_invoke in Hinv. rewrite Hw in Hinv.
    cbn [mbind option_bind] in Hinv.
    destruct (handle d.2 w); discriminate.
Qed.

Lemma ref_run_operations_calls (os : list operation) (r : Ref) :
  ref_run_operations SAMPLE_FORMAT_PTB64 os r
  = cs ← operations_calls SAMPLE_FORMAT_PTB64 (ref_format r)
           (length (ref_writers r)) os;
    ref_perform cs r.
Proof.
  revert r. induction os as [|o os IH]; intros r; [reflexivity|].
  cbn [ref_run_operations operations_calls]. unfold ref_run_operation.
  destruct (operation_calls _ _ _ o) as [cs|]; [|reflexivity].
  cbn [mbind option_bind].
  destruct (ref_perform cs r) as [r1|] eqn:Hp.
  - cbn [mbind option_bind]. rewrite IH.
    destruct (ref_perform_frame _ _ _ Hp) as (-> & -> & _).
    destruct (operations_calls _ _ _ os) as [rest|]; [|reflexivity].
    cbn [mbind option_bind]. rewrite ref_perform_app, Hp. reflexivity.
  - cbn [mbind option_bind].
    destruct (operations_calls _ _ _ os) as [rest|]; [|reflexivity].
    cbn [mbind option_bind]. rewrite ref_perform_app, Hp. reflexivity.
Qed.

(** Buffer [k] of the reference receives what writer [k] emits over the
    calls addressed to it. *)
Lemma ref_perform_streams (cs : list dispatch) (r r' : Ref) (k : nat)
    (w : W) (b : list byte) :
  ref_perform cs r = Some r' ->
  ref_writers r !! k = Some w -> buffers r !! k = Some b ->
  ref_writers r' !! k = Some (run_calls (calls_of k cs) w).1
  /\ buffers r' !! k = Some (b ++ (run_calls (calls_of k cs) w).2).
Proof.
  revert r w b. induction cs as [|d cs IH]; intros r w b Hp Hw Hb.
  - injection Hp as <-. cbn. rewrite app_nil_r. auto.
  - cbn [ref_perform] in Hp.
    destruct (ref_invoke d r) as [r1|] eqn:Hinv; [|discriminate].
    cbn [mbind option_bind] in Hp.
    change (d :: cs) with ([d] ++ cs). rewrite calls_of_app.
    unfold calls_of at 1 3. cbn [filter list_filter].
    unfold ref_invoke in Hinv.
    destruct (ref_writers r !! d.1) as [wd|] eqn:Hwd; [|discriminate].
    cbn [mbind option_bind] in Hinv.
    destruct (handle d.2 wd) as [wd' bs] eqn:Hh. injection Hinv as <-.
    destruct (decide (d.1 = k)) as [Heq|Hne].
    + rewrite Heq, Hw in Hwd. injection Hwd as <-.
      cbn [fmap list_fmap app run_calls]. rewrite Hh.
      destruct (IH _ wd' (b ++ bs) Hp) as [Hw' Hb'].
      { cbn. rewrite Heq. apply list_lookup_insert_eq.
        eapply lookup_lt_Some; exact Hw. }
      { cbn. rewrite Heq, list_lookup_alter_eq, Hb. reflexivity. }
      destruct (run_calls (calls_of k cs) wd') as [w2 bs2].
      cbn [fst snd] in *. rewrite Hw', Hb', app_assoc. auto.
    + cbn [fmap list_fmap app].
      apply (IH _ w b Hp).
      * cbn. rewrite list_lookup_insert_ne by exact Hne. exact Hw.
      * cbn. rewrite list_lookup_alter_ne by exact Hne. exact Hb.
Qed.

End Refinement.

(** C1.  For every non-empty vector of writers, every format and every
    sequence of [begin_result_type], [batch_write_bit] and
    [batch_write_bytes] calls, what [out] holds after [write_end] is what it
    held at construction followed by the output of the reference
    implementation, which writes the writers to separate buffers and
    concatenates the buffers; and that output is the stream of writer 0
    followed, in ascending order, by the streams of writers 1 .. N-1, the
    stream of a writer being what it emits over the calls addressed to it.
    Both sides fail together when a call reads outside its buffer. *)
Theorem write_end_output_is_concatenation
    {SampleFormat : Type} `{EqDecision SampleFormat}
    (SAMPLE_FORMAT_PTB64 : SampleFormat)
    {W : Type} `{MeasureRecordWriter W}
    (out0 : list byte) (ws : list W) (fmt : SampleFormat)
    (os : list operation) :
  ws <> [] ->
  out <$> (run_operations SAMPLE_FORMAT_PTB64 os (construct out0 ws fmt)
           ≫= write_end)
  = app out0 <$> (ref_run_operations SAMPLE_FORMAT_PTB64 os
                    (ref_construct ws fmt) ≫= ref_write_end)
  /\ ref_run_operations SAMPLE_FORMAT_PTB64 os (ref_construct ws fmt)
     ≫= ref_write_end
     = (fun cs =>
          concat (imap (fun k w =>
                          (run_calls
                             (calls_of k (cs ++ write_end_calls (length ws)))
                             w).2) ws))
         <$> operations_calls SAMPLE_FORMAT_PTB64 fmt (length ws) os.
Proof.
  intros Hne. split.
  - destruct (run_operations_matches SAMPLE_FORMAT_PTB64 out0 os
                (construct out0 ws fmt) (ref_construct ws fmt))
      as [self r Hm|]; [by apply construct_matches| |reflexivity].
    cbn [mbind option_bind]. apply write_end_matches, Hm.
  - rewrite ref_run_operations_calls.
    change (ref_format (ref_construct ws fmt)) with fmt.
    change (length (ref_writers (ref_construct ws fmt))) with (length ws).
    destruct (operations_calls _ fmt (length ws) os) as [cs|] eqn:Hcs;
      [|reflexivity].
    cbn [mbind option_bind fmap option_fmap option_map].
    set (r0 := ref_construct ws fmt).
    destruct (ref_perform_is_Some cs r0) as [r1 Hr1].
    { eapply operations_calls_indices, Hcs. }
    rewrite Hr1. cbn [mbind option_bind]. unfold ref_write_end.
    destruct (ref_perform_frame _ _ _ Hr1) as (_ & Hlen1 & _).
    rewrite Hlen1. change (length (ref_writers r0)) with (length ws).
    destruct (ref_perform_is_Some (write_end_calls (length ws)) r1) as [r2 Hr2].
    { rewrite Hlen1. apply list.Forall_forall. intros d Hd.
      apply list_elem_of_fmap in Hd as (k & -> & Hk).
      apply elem_of_seq in Hk. cbn. lia. }
    rewrite Hr2. cbn [mbind option_bind]. do 2 f_equal.
    assert (ref_perform (cs ++ write_end_calls (length ws)) r0 = Some r2)
      as Hall by (rewrite ref_perform_app, Hr1; exact Hr2).
    destruct (ref_perform_frame _ _ _ Hall) as (_ & _ & Hlenb).
    change (buffers r0) with (replicate (A := list byte) (length ws) [])
      in Hlenb.
    rewrite length_replicate in Hlenb.
    apply list_eq. intros k. rewrite list_lookup_imap.
    destruct (ws !! k) as [w|] eqn:Hw.
    + apply lookup_lt_Some in Hw as Hk.
      destruct (ref_perform_streams _ _ _ k w [] Hall) as [_ Hb].
      * exact Hw.
      * cbn. apply lookup_replicate_2, Hk.
      * rewrite Hb. reflexivity.
    + apply lookup_ge_None in Hw. cbn.
      apply lookup_ge_None. lia.
Qed.

Lemma write_end_output_is_concatenation_witness :
  out <$> (run_operations TRANSPOSED_PACKED_64
             [Begin_result_type Byte.x4d;
              Batch_write_bit example_row;
              Batch_write_bytes example_table 1]
             (construct (W := unit) [Byte.x2a] [tt; tt] SERIAL)
           ≫= write_end)
  = app [Byte.x2a]
      <$> (ref_run_operations TRANSPOSED_PACKED_64
             [Begin_result_type Byte.x4d;
              Batch_write_bit example_row;
              Batch_write_bytes example_table 1]
             (ref_construct (W := unit) [tt; tt] SERIAL)
           ≫= ref_write_end).
Proof.
  refine (proj1 (write_end_output_is_concatenation TRANSPOSED_PACKED_64
                   [Byte.x2a] [tt; tt] SERIAL _ _)).
  discriminate.
Defined.

(** * Sixty-four rows against one bulk call *)

Lemma length_concat_const (rows : list (list byte)) (len : nat) :
  Forall (fun row => length row = len) rows ->
  length (concat rows) = length rows * len.
Proof.
  induction 1 as [|row rows Hrow _ IH]; [reflexivity|].
  cbn [concat length]. rewrite length_app, Hrow, IH. reflexivity.
Qed.

Lemma lookup_concat_const (rows : list (list byte)) (len j i : nat)
    (row : list byte) :
  Forall (fun row => length row = len) rows ->
  rows !! j = Some row -> i < len ->
  concat rows !! (j * len + i) = row !! i.
Proof.
  intros Hall. revert j. induction Hall as [|r rows Hr _ IH]; intros j Hj Hi;
    [done|].
  cbn [concat]. destruct j as [|j].
  - injection Hj as ->. rewrite lookup_app_l by lia. reflexivity.
  - rewrite lookup_app_r by lia.
    replace (S j * len + i - length r) with (j * len + i) by lia.
    apply IH; assumption.
Qed.

(** Bit [k] of row [j] of a table laid out row after row. *)
Lemma bit_at_concat_const (rows : list (list byte)) (len j k : nat)
    (row : list byte) :
  Forall (fun row => length row = len) rows ->
  rows !! j = Some row -> k < 8 * len ->
  bit_at (concat rows) (8 * (j * len) + k) = bit_at row k.
Proof.
  intros Hall Hj Hk. unfold bit_at, bits_get.
  replace (8 * (j * len) + k) with (k + (j * len) * 8) by lia.
  rewrite Nat.div_add, Nat.Div0.mod_add by lia.
  replace (k / 8 + j * len) with (j * len + k / 8) by lia.
  rewrite (lookup_concat_const rows len j (k / 8) row Hall Hj);
    [reflexivity|].
  apply Nat.Div0.div_lt_upper_bound. lia.
Qed.

Section RowsAgainstBulk.

Context {SampleFormat : Type} `{EqDecision SampleFormat}.
Variable SAMPLE_FORMAT_PTB64 : SampleFormat.

Lemma serial_rows_calls (fmt : SampleFormat) (n : nat)
    (rows : list (list byte)) :
  fmt <> SAMPLE_FORMAT_PTB64 ->
  Forall (fun row => n <= 8 * length row) rows ->
  operations_calls SAMPLE_FORMAT_PTB64 fmt n (Batch_write_bit <$> rows)
  = Some (rows ≫= fun row => fan_out n (fun k => [WriteBit (bit_at row k)])).
Proof.
  intros Hfmt. induction 1 as [|row rows Hrow _ IH]; [reflexivity|].
  rewrite fmap_cons. cbn [operations_calls operation_calls].
  rewrite IH. unfold batch_write_bit_calls.
  rewrite decide_False by exact Hfmt.
  rewrite batch_write_bit_serial_inside by exact Hrow.
  cbn [mbind option_bind]. rewrite bind_cons, fan_out_singleton. reflexivity.
Qed.

Lemma serial_rows_recorded (n k : nat) (rows : list (list byte)) :
  k < n ->
  recorded_bits
    (calls_of k (rows ≫= fun row => fan_out n (fun k => [WriteBit (bit_at row k)])))
  = (fun row => bit_at row k) <$> rows.
Proof.
  intros Hk. induction rows as [|row rows IH]; [reflexivity|].
  rewrite bind_cons, calls_of_app, calls_of_fan_out by exact Hk.
  unfold recorded_bits in *. rewrite bind_app, IH. reflexivity.
Qed.

(** Under any format other than the packed one, 64 calls to
    [batch_write_bit] on the 64 rows of a table hand every writer the same
    samples, in the same order, as one call to [batch_write_bytes] on that
    table with [num_major_u64 = 1]. *)
Lemma serial_rows_equal_bulk (fmt : SampleFormat) (n c : nat)
    (rows : list (list byte)) :
  fmt <> SAMPLE_FORMAT_PTB64 ->
  length rows = 64 ->
  Forall (fun row => length row = 8 * c) rows ->
  fits_size_t (512 * c) ->
  n <= 64 * c ->
  exists cs1 cs2,
    operations_calls SAMPLE_FORMAT_PTB64 fmt n (Batch_write_bit <$> rows)
    = Some cs1
    /\ batch_write_bytes_calls SAMPLE_FORMAT_PTB64 fmt n
         {| num_major_u64_padded := 1; num_minor_u64_padded := c;
            data := concat rows |} 1
       = Some cs2
    /\ forall k, k < n ->
         recorded_bits (calls_of k cs1) = recorded_bits (calls_of k cs2).
Proof.
  intros Hfmt Hlen Hrows Hfit Hn.
  set (t := {| num_major_u64_padded := 1; num_minor_u64_padded := c;
               data := concat rows |}).
  assert (table_wf t) as Hwf.
  { unfold table_wf, num_major_bits_padded, num_minor_u8_padded. cbn.
    rewrite (length_concat_const rows (8 * c) Hrows), Hlen.
    split; [lia|]. eapply fits_size_t_le; [|exact Hfit]. lia. }
  assert (batch_write_bytes_calls SAMPLE_FORMAT_PTB64 fmt n t 1
          = Some (fan_out n (fun k => [WriteBytes (transposed_run t 1 k)])))
    as Hcs2.
  { unfold batch_write_bytes_calls. rewrite decide_False by exact Hfmt.
    apply batch_write_bytes_serial_inside; [exact Hwf|cbn; lia..]. }
  eexists _, _. split; [|split; [exact Hcs2|]].
  - apply serial_rows_calls; [exact Hfmt|].
    eapply list.Forall_impl; [exact Hrows|]. cbn. intros row ->. lia.
  - intros k Hk. rewrite serial_rows_recorded by exact Hk.
    rewrite calls_of_fan_out by exact Hk.
    change (recorded_bits [WriteBytes ?bs]) with (bits_of_bytes bs ++ []).
    rewrite app_nil_r.
    rewrite transposed_run_bits by (cbn; lia).
    apply list_eq. intros j. rewrite !list_lookup_fmap.
    destruct (rows !! j) as [row|] eqn:Hj.
    + apply lookup_lt_Some in Hj as Hj64.
      rewrite lookup_seq_lt by lia. cbn. f_equal.
      rewrite table_bit_bit_at. symmetry.
      apply (bit_at_concat_const rows (8 * c) j k row Hrows Hj). lia.
    + apply lookup_ge_None in Hj.
      rewrite lookup_seq_ge by lia. reflexivity.
Qed.

Lemma for_loop_inv (n k0 : nat) (body : nat -> option (list dispatch))
    (cs : list dispatch) :
  for_loop n k0 body = Some cs ->
  (forall k, k0 <= k < k0 + n -> body k = Some (default [] (body k)))
  /\ cs = seq k0 n ≫= (fun k => default [] (body k)).
Proof.
  revert k0 cs. induction n as [|n IH]; intros k0 cs Hloop.
  - injection Hloop as <-. split; [lia|reflexivity].
  - cbn [for_loop] in Hloop.
    destruct (body k0) as [c|] eqn:Hc; [|discriminate].
    cbn [mbind option_bind] in Hloop.
    destruct (for_loop n (S k0) body) as [rest|] eqn:Hrest; [|discriminate].
    injection Hloop as <-. destruct (IH _ _ Hrest) as [Hbody ->].
    split.
    + intros k Hk. destruct (decide (k = k0)) as [->|Hne].
      * rewrite Hc. reflexivity.
      * apply Hbody. lia.
    + cbn [seq]. rewrite bind_cons, Hc. reflexivity.
Qed.

Lemma read_range_eight (buf : list byte) (p : nat) (bs : list byte) :
  read_range buf p (p + 8) = Some bs -> length bs = 8.
Proof.
  unfold read_range. rewrite decide_False by lia.
  destruct (decide (p + 8 <= length buf)) as [Hin|]; [|discriminate].
  intros [= <-]. rewrite length_slice by lia. lia.
Qed.

Lemma bind_ext_seq {B : Type} (f g : nat -> list B) (k0 n : nat) :
  (forall k, k0 <= k < k0 + n -> f k = g k) -> seq k0 n ≫= f = seq k0 n ≫= g.
Proof.
  revert k0. induction n as [|n IH]; intros k0 Hfg; [reflexivity|].
  cbn [seq]. rewrite !bind_cons, Hfg by lia. f_equal. apply IH.
  intros k Hk. apply Hfg. lia.
Qed.

(** Under the packed format, whatever the rows and the table, each call to
    [batch_write_bit] hands 64 sample bits to every writer ... *)
Lemma ptb64_rows_sample_count (n k : nat) (rows : list (list byte))
    (cs : list dispatch) :
  operations_calls SAMPLE_FORMAT_PTB64 SAMPLE_FORMAT_PTB64 n
    (Batch_write_bit <$> rows) = Some cs ->
  k < n ->
  sample_count (calls_of k cs) = 64 * length rows.
Proof.
  revert cs. induction rows as [|row rows IH]; intros cs Hcs Hk.
  - injection Hcs as <-. reflexivity.
  - rewrite fmap_cons in Hcs. cbn [operations_calls operation_calls] in Hcs.
    rewrite batch_write_bit_ptb64_calls in Hcs.
    destruct (decide (8 * n <= length row)) as [Hin|]; [|discriminate].
    cbn [mbind option_bind] in Hcs.
    destruct (operations_calls _ _ n (Batch_write_bit <$> rows)) as [rest|];
      [|discriminate].
    injection Hcs as <-.
    rewrite calls_of_app, sample_count_app, (IH rest eq_refl Hk).
    rewrite calls_of_fan_out by exact Hk.
    rewrite sample_count_write_bytes, length_slice by lia.
    cbn [length]. lia.
Qed.

(** ... and [batch_write_bytes] with [num_major_u64 = 1] hands 64 sample
    bits to every writer, as much as one row. *)
Lemma ptb64_bulk_sample_count (n k : nat) (table : simd_bit_table)
    (cs : list dispatch) :
  batch_write_bytes_calls SAMPLE_FORMAT_PTB64 SAMPLE_FORMAT_PTB64 n table 1
  = Some cs ->
  k < n ->
  sample_count (calls_of k cs) = 64.
Proof.
  unfold batch_write_bytes_calls. rewrite decide_True by reflexivity.
  unfold batch_write_bytes_ptb64. intros Hcs Hk.
  apply for_loop_inv in Hcs as [Hbody ->].
  set (group i := default []
         (read_range (data table)
            (size_t_mul i 8 + size_t_mul (num_minor_u8_padded table) 0)
            (size_t_mul i 8 + size_t_mul (num_minor_u8_padded table) 0 + 8))).
  assert (forall i, 0 <= i < 0 + n ->
            read_range (data table)
              (size_t_mul i 8 + size_t_mul (num_minor_u8_padded table) 0)
              (size_t_mul i 8 + size_t_mul (num_minor_u8_padded table) 0 + 8)
            = Some (group i)) as Hread.
  { intros i Hi. specialize (Hbody i Hi). cbn [for_loop] in Hbody.
    cbv zeta in Hbody. unfold group.
    destruct (read_range _ _ _); [reflexivity|discriminate]. }
  rewrite (bind_ext_seq _ (fun i => pair i <$> [WriteBytes (group i)])).
  - rewrite calls_of_bind_seq, decide_True by lia.
    rewrite sample_count_write_bytes.
    rewrite (read_range_eight _ _ _ (Hread k ltac:(lia))). reflexivity.
  - intros i Hi. cbn [for_loop]. cbv zeta. rewrite (Hread i Hi). reflexivity.
Qed.

End RowsAgainstBulk.


(** C5, at the failing input.  Under the packed format, with one writer that
    puts the bytes it is given on its stream, 64 calls to [batch_write_bit]
    on the 64 rows of a table put all 64 rows (512 bytes) on the stream,
    whereas [batch_write_bytes] on that table with [num_major_u64 = 1] puts
    only the first row (8 bytes) on it. *)
Theorem ptb64_bulk_call_covers_one_row_of_64 :
  out <$> run_operations TRANSPOSED_PACKED_64
            (Batch_write_bit <$> example_rows)
            (construct (W := unit) [] [tt] TRANSPOSED_PACKED_64)
  = Some (concat example_rows)
  /\ out <$> batch_write_bytes TRANSPOSED_PACKED_64
               (construct (W := unit) [] [tt] TRANSPOSED_PACKED_64)
               example_rows_table 1
     = Some (take 8 (concat example_rows))
  /\ length (concat example_rows) = 512
  /\ data example_rows_table = concat example_rows.
Proof. repeat split; vm_compute; reflexivity. Qed.

(** * Further properties of the fan-out routines *)

(** ** The object after a sequence of calls *)

Section Streams.

Context {SampleFormat : Type} `{EqDecision SampleFormat}.
Variable SAMPLE_FORMAT_PTB64 : SampleFormat.
Context {W : Type} `{MeasureRecordWriter W}.

Abbreviation Self := (MeasureRecordBatchWriter SampleFormat W).

Lemma run_calls_single (c : call) (w : W) :
  run_calls [c] w = handle c w.
Proof.
  cbn [run_calls]. destruct (handle c w) as [w' bs].
  rewrite app_nil_r. reflexivity.
Qed.

Lemma run_calls_cons (c : call) (cs : list call) (w : W) :
  (run_calls (c :: cs) w).2
  = (handle c w).2 ++ (run_calls cs (handle c w).1).2.
Proof.
  cbn [run_calls]. destruct (handle c w) as [w' bs]. cbn [fst snd].
  destruct (run_calls cs w') as [w'' bs']. reflexivity.
Qed.

Lemma calls_of_cons (k : nat) (d : nat * call) (cs : list (nat * call)) :
  calls_of k (d :: cs)
  = if decide (d.1 = k) then d.2 :: calls_of k cs else calls_of k cs.
Proof.
  unfold calls_of. cbn [filter list_filter].
  destruct (decide (d.1 = k)); reflexivity.
Qed.

Lemma invoke_stream (d : nat * call) (self self' : Self) (k : nat) (w : W) :
  invoke d self = Some self' -> writers self !! d.1 = Some w ->
  stream k self'
  = (fun f => f ++ if decide (d.1 = k) then (handle d.2 w).2 else [])
      <$> stream k self.
Proof.
  intros Hinv Hw. apply invoke_Some in Hinv as (w0 & Hw0 & ->).
  rewrite Hw in Hw0. injection Hw0 as <-.
  destruct d as [i c]. cbn [fst snd] in *.
  destruct i as [|i], k as [|k]; cbn [emit set_writer stream out temporary_files
                                      fmap option_fmap option_map].
  - rewrite decide_True by reflexivity. reflexivity.
  - rewrite decide_False by lia.
    destruct (temporary_files self !! k) as [f|]; [|reflexivity].
    cbn. rewrite app_nil_r. reflexivity.
  - rewrite decide_False by lia. rewrite app_nil_r. reflexivity.
  - destruct (decide (i = k)) as [->|Hne].
    + rewrite decide_True by reflexivity. apply list_lookup_alter_eq.
    + rewrite decide_False by lia.
      rewrite list_lookup_alter_ne by exact Hne.
      destruct (temporary_files self !! k) as [f|]; [|reflexivity].
      cbn. rewrite app_nil_r. reflexivity.
Qed.

(** Every stream receives exactly what its writer emits over the calls
    addressed to it, appended to what it held. *)
Lemma perform_stream (cs : list (nat * call)) (self self' : Self) (k : nat) :
  perform cs self = Some self' ->
  stream k self' = (fun f => f ++ emitted (writers self) k cs) <$> stream k self.
Proof.
  revert self. induction cs as [|d cs IH]; intros self Hp.
  - injection Hp as <-. unfold emitted.
    destruct (stream k self) as [f|]; [|reflexivity].
    cbn. f_equal. destruct (writers self !! k); cbn; rewrite app_nil_r;
      reflexivity.
  - cbn [perform] in Hp.
    destruct (invoke d self) as [self1|] eqn:Hinv; [|discriminate].
    cbn [mbind option_bind] in Hp.
    destruct (invoke_Some _ _ _ Hinv) as (w & Hw & _).
    rewrite (IH _ Hp), (invoke_stream d self self1 k w Hinv Hw).
    destruct (stream k self) as [f|]; [|reflexivity].
    cbn [fmap option_fmap option_map]. f_equal.
    rewrite <- app_assoc. f_equal.
    unfold emitted. rewrite (invoke_writers _ _ _ _ Hinv), calls_of_cons.
    destruct (decide (d.1 = k)) as [Heq|Hne].
    + rewrite <- Heq, Hw. cbn [from_option fmap option_fmap option_map].
      rewrite run_calls_cons. reflexivity.
    + destruct (writers self !! k); reflexivity.
Qed.

Lemma perform_temporary_files_length (cs : list (nat * call)) (self self' : Self) :
  perform cs self = Some self' ->
  length (temporary_files self') = length (temporary_files self).
Proof.
  revert self. induction cs as [|d cs IH]; intros self Hp.
  - injection Hp as <-. reflexivity.
  - cbn [perform] in Hp.
    destruct (invoke d self) as [self1|] eqn:Hinv; [|discriminate].
    cbn [mbind option_bind] in Hp. rewrite (IH _ Hp).
    apply invoke_Some in Hinv as (w & _ & ->).
    destruct d as [[|j] c]; cbn; [reflexivity|apply length_alter].
Qed.

(** A sequence of calls can be performed exactly when each of them is
    addressed to a writer of the vector. *)
Lemma perform_is_Some_iff (cs : list (nat * call)) (self : Self) :
  is_Some (perform cs self)
  <-> Forall (fun d : nat * call => d.1 < length (writers self)) cs.
Proof.
  split; [|apply perform_is_Some].
  revert self. induction cs as [|d cs IH]; intros self [self' Hp];
    [constructor|].
  cbn [perform] in Hp.
  destruct (invoke d self) as [self1|] eqn:Hinv; [|discriminate].
  cbn [mbind option_bind] in Hp.
  destruct (invoke_Some _ _ _ Hinv) as (w & Hw & _).
  constructor; [eapply lookup_lt_Some, Hw|].
  rewrite <- (proj2 (invoke_frame _ _ _ Hinv)). apply IH. by eexists.
Qed.

(** The object after a sequence of calls depends only on what each writer
    received, not on how the calls to different writers interleave. *)
Lemma perform_ext (cs1 cs2 : list (nat * call)) (self : Self) :
  (forall k, calls_of k cs1 = calls_of k cs2) ->
  perform cs1 self = perform cs2 self.
Proof.
  intros Hcalls.
  assert (forall cs cs' : list (nat * call),
            (forall k, calls_of k cs = calls_of k cs') ->
            Forall (fun d : nat * call => d.1 < length (writers self)) cs ->
            Forall (fun d : nat * call => d.1 < length (writers self)) cs')
    as Hindices.
  { intros cs cs' Heq Hall. apply list.Forall_forall. intros d Hd.
    assert (d.2 ∈ calls_of d.1 cs') as Hin.
    { unfold calls_of. apply list_elem_of_fmap. exists d. split; [reflexivity|].
      apply list_elem_of_filter. split; [reflexivity|exact Hd]. }
    rewrite <- Heq in Hin. unfold calls_of in Hin.
    apply list_elem_of_fmap in Hin as (d' & _ & Hd').
    apply list_elem_of_filter in Hd' as [Hk Hd'].
    rewrite <- Hk. exact (proj1 (list.Forall_forall _ _) Hall d' Hd'). }
  destruct (perform cs1 self) as [s1|] eqn:H1, (perform cs2 self) as [s2|] eqn:H2.
  - f_equal.
    assert (writers s1 = writers s2) as Hws.
    { apply list_eq. intros k.
      rewrite (perform_writers _ _ _ k H1), (perform_writers _ _ _ k H2), Hcalls.
      reflexivity. }
    assert (forall k, stream k s1 = stream k s2) as Hst.
    { intros k. rewrite (perform_stream _ _ _ k H1), (perform_stream _ _ _ k H2).
      unfold emitted. rewrite Hcalls. reflexivity. }
    destruct (perform_frame _ _ _ H1) as [Hf1 _].
    destruct (perform_frame _ _ _ H2) as [Hf2 _].
    pose proof (Hst 0) as Hout. cbn in Hout. injection Hout as Hout.
    assert (temporary_files s1 = temporary_files s2) as Htf.
    { apply list_eq. intros j. apply (Hst (S j)). }
    destruct s1, s2. cbn in *. congruence.
  - exfalso. apply (is_Some_None (A := Self)). rewrite <- H2.
    apply perform_is_Some_iff, (Hindices cs1 cs2 Hcalls).
    apply perform_is_Some_iff. by eexists.
  - exfalso. apply (is_Some_None (A := Self)). rewrite <- H1.
    apply perform_is_Some_iff, (Hindices cs2 cs1); [by symmetry|].
    apply perform_is_Some_iff. by eexists.
  - reflexivity.
Qed.

(** The effect of a fan-out: each writer goes through its own calls and its
    stream receives what it emits. *)
Lemma perform_fan_out (n : nat) (g : nat -> list call) (self : Self) :
  n = length (writers self) ->
  exists self',
    perform (fan_out n g) self = Some self'
    /\ output_format self' = output_format self
    /\ length (writers self') = length (writers self)
    /\ length (temporary_files self') = length (temporary_files self)
    /\ forall k w, writers self !! k = Some w ->
         writers self' !! k = Some (run_calls (g k) w).1
         /\ stream k self'
            = (fun f => f ++ (run_calls (g k) w).2) <$> stream k self.
Proof.
  intros Hn.
  destruct (perform_is_Some (fan_out n g) self) as [self' Hp].
  { rewrite <- Hn. apply fan_out_indices. }
  exists self'. split; [exact Hp|].
  destruct (perform_frame _ _ _ Hp) as [Hfmt Hlen].
  split; [exact Hfmt|]. split; [exact Hlen|].
  split; [apply (perform_temporary_files_length _ _ _ Hp)|].
  intros k w Hw.
  assert (k < n) as Hk by (rewrite Hn; eapply lookup_lt_Some, Hw).
  split.
  - rewrite (perform_writers _ _ _ k Hp), Hw, calls_of_fan_out by exact Hk.
    reflexivity.
  - rewrite (perform_stream _ _ _ k Hp). unfold emitted.
    rewrite Hw, calls_of_fan_out by exact Hk. reflexivity.
Qed.

End Streams.

(** ** The single-row entry point on the object *)

Section SingleRow.

Context {SampleFormat : Type} `{EqDecision SampleFormat}.
Variable SAMPLE_FORMAT_PTB64 : SampleFormat.
Context {W : Type} `{MeasureRecordWriter W}.

(** The call [batch_write_bit] addresses to writer [k]. *)
Lemma batch_write_bit_calls_fan_out (fmt : SampleFormat) (n : nat)
    (bits : list byte) :
  (if decide (fmt = SAMPLE_FORMAT_PTB64)
   then 8 * n <= length bits else n <= 8 * length bits) ->
  batch_write_bit_calls SAMPLE_FORMAT_PTB64 fmt n bits
  = Some (fan_out n (fun k =>
            [if decide (fmt = SAMPLE_FORMAT_PTB64)
             then WriteBytes (slice bits (8 * k) 8)
             else WriteBit (bit_at bits k)])).
Proof.
  destruct (decide (fmt = SAMPLE_FORMAT_PTB64)) as [->|Hne]; intros Hin.
  - rewrite batch_write_bit_ptb64_calls, decide_True by exact Hin.
    reflexivity.
  - unfold batch_write_bit_calls. rewrite decide_False by exact Hne.
    rewrite batch_write_bit_serial_inside by exact Hin.
    rewrite fan_out_singleton. reflexivity.
Qed.

Lemma batch_write_bit_calls_None (fmt : SampleFormat) (n : nat)
    (bits : list byte) :
  ~ (if decide (fmt = SAMPLE_FORMAT_PTB64)
     then 8 * n <= length bits else n <= 8 * length bits) ->
  batch_write_bit_calls SAMPLE_FORMAT_PTB64 fmt n bits = None.
Proof.
  destruct (decide (fmt = SAMPLE_FORMAT_PTB64)) as [->|Hne]; intros Hout.
  - rewrite batch_write_bit_ptb64_calls, decide_False by exact Hout.
    reflexivity.
  - unfold batch_write_bit_calls. rewrite decide_False by exact Hne.
    apply batch_write_bit_serial_outside. lia.
Qed.

End SingleRow.

(** X1.  Whatever the writers are, [batch_write_bit] succeeds exactly when the
    row is large enough for the branch taken: at least 8 bytes per writer
    under the packed format, at least one bit per writer otherwise. *)
Theorem batch_write_bit_succeeds_iff
    {SampleFormat : Type} `{EqDecision SampleFormat}
    (SAMPLE_FORMAT_PTB64 : SampleFormat)
    {W : Type} `{MeasureRecordWriter W}
    (self : MeasureRecordBatchWriter SampleFormat W) (bits : list byte) :
  is_Some (batch_write_bit SAMPLE_FORMAT_PTB64 self bits)
  <-> if decide (output_format self = SAMPLE_FORMAT_PTB64)
      then 8 * length (writers self) <= length bits
      else length (writers self) <= 8 * length bits.
Proof.
  unfold batch_write_bit. split.
  - intros Hsome.
    destruct (decide (output_format self = SAMPLE_FORMAT_PTB64)) as [Heq|Hne].
    + destruct (decide (8 * length (writers self) <= length bits)) as [|Hout];
        [assumption|].
      rewrite batch_write_bit_calls_None in Hsome
        by (rewrite decide_True by exact Heq; exact Hout).
      destruct Hsome as [? [=]].
    + destruct (decide (length (writers self) <= 8 * length bits)) as [|Hout];
        [assumption|].
      rewrite batch_write_bit_calls_None in Hsome
        by (rewrite decide_False by exact Hne; exact Hout).
      destruct Hsome as [? [=]].
  - intros Hin. rewrite batch_write_bit_calls_fan_out by exact Hin.
    cbn [mbind option_bind]. apply perform_is_Some, fan_out_indices.
Qed.

Lemma batch_write_bit_succeeds_iff_witness :
  is_Some (batch_write_bit TRANSPOSED_PACKED_64
             (construct (W := unit) [] [tt; tt] TRANSPOSED_PACKED_64)
             example_row)
  /\ ~ is_Some (batch_write_bit TRANSPOSED_PACKED_64
                  (construct (W := unit) [] [tt; tt; tt] TRANSPOSED_PACKED_64)
                  example_row)
  /\ is_Some (batch_write_bit TRANSPOSED_PACKED_64
                (construct (W := unit) [] [tt; tt; tt] SERIAL) example_row).
Proof.
  split; [|split].
  - apply (batch_write_bit_succeeds_iff TRANSPOSED_PACKED_64). vm_compute. lia.
  - intros Hsome.
    apply (batch_write_bit_succeeds_iff TRANSPOSED_PACKED_64) in Hsome.
    vm_compute in Hsome. lia.
  - apply (batch_write_bit_succeeds_iff TRANSPOSED_PACKED_64). vm_compute. lia.
Defined.

(** X2.  On a row that is large enough, [batch_write_bit] succeeds, keeps the
    format and the sizes of the object, and makes every writer [k] handle
    exactly one call (a [write_bytes] of bytes [8k .. 8k+7] of the row under
    the packed format, a [write_bit] of bit [k] otherwise); what writer [k]
    emits on that call is appended to the stream it is bound to, [out] for
    writer 0 and temporary file [k - 1] for the others. *)
Theorem batch_write_bit_effect
    {SampleFormat : Type} `{EqDecision SampleFormat}
    (SAMPLE_FORMAT_PTB64 : SampleFormat)
    {W : Type} `{MeasureRecordWriter W}
    (self : MeasureRecordBatchWriter SampleFormat W) (bits : list byte) :
  (if decide (output_format self = SAMPLE_FORMAT_PTB64)
   then 8 * length (writers self) <= length bits
   else length (writers self) <= 8 * length bits) ->
  exists self',
    batch_write_bit SAMPLE_FORMAT_PTB64 self bits = Some self'
    /\ output_format self' = output_format self
    /\ length (writers self') = length (writers self)
    /\ length (temporary_files self') = length (temporary_files self)
    /\ forall k w, writers self !! k = Some w ->
         let c := if decide (output_format self = SAMPLE_FORMAT_PTB64)
                  then WriteBytes (slice bits (8 * k) 8)
                  else WriteBit (bit_at bits k) in
         writers self' !! k = Some (handle c w).1
         /\ stream k self' = (fun f => f ++ (handle c w).2) <$> stream k self.
Proof.
  intros Hin. unfold batch_write_bit.
  rewrite batch_write_bit_calls_fan_out by exact Hin.
  cbn [mbind option_bind].
  destruct (perform_fan_out (length (writers self))
              (fun k => [if decide (output_format self = SAMPLE_FORMAT_PTB64)
                         then WriteBytes (slice bits (8 * k) 8)
                         else WriteBit (bit_at bits k)]) self eq_refl)
    as (self' & Hp & Hfmt & Hlen & Htf & Heff).
  exists self'. repeat (split; [assumption|]).
  intros k w Hw. destruct (Heff k w Hw) as [Hwk Hsk].
  rewrite run_calls_single in Hwk, Hsk. split; assumption.
Qed.

Lemma batch_write_bit_effect_witness :
  exists self',
    batch_write_bit TRANSPOSED_PACKED_64
      (construct (W := unit) [Byte.x2a] [tt; tt] SERIAL) example_row
    = Some self'
    /\ out self' = [Byte.x2a; Byte.x31]
    /\ temporary_files self' = [[Byte.x30]].
Proof.
  destruct (batch_write_bit_effect TRANSPOSED_PACKED_64
              (construct (W := unit) [Byte.x2a] [tt; tt] SERIAL) example_row)
    as (self' & Hrun & _ & _ & Hlen & Heff); [vm_compute; lia|].
  exists self'. split; [exact Hrun|].
  destruct (Heff 0 tt eq_refl) as [_ H0].
  destruct (Heff 1 tt eq_refl) as [_ H1].
  cbn in H0, H1, Hlen. injection H0 as H0.
  destruct (temporary_files self') as [|f [|f' tf]]; try discriminate.
  cbn in H1. injection H1 as H1. split; congruence.
Defined.

(** ** The bulk entry point on the object *)

Section Bulk.

Context {SampleFormat : Type} `{EqDecision SampleFormat}.
Variable SAMPLE_FORMAT_PTB64 : SampleFormat.

(** The calls [batch_write_bytes] addresses to writer [k] on a table that
    covers the call. *)
Lemma batch_write_bytes_calls_fan_out (fmt : SampleFormat) (n : nat)
    (t : simd_bit_table) (m : nat) :
  table_wf t ->
  (if decide (fmt = SAMPLE_FORMAT_PTB64)
   then 8 * n <= num_minor_u8_padded t /\ m <= num_major_bits_padded t
   else n <= num_minor_bits_padded t /\ m <= num_major_u64_padded t) ->
  batch_write_bytes_calls SAMPLE_FORMAT_PTB64 fmt n t m
  = Some (fan_out n (fun k =>
            if decide (fmt = SAMPLE_FORMAT_PTB64)
            then (fun w => WriteBytes (packed_group t k w)) <$> seq 0 m
            else [WriteBytes (transposed_run t m k)])).
Proof.
  intros Hwf. unfold batch_write_bytes_calls.
  destruct (decide (fmt = SAMPLE_FORMAT_PTB64)) as [->|Hne]; intros [Hn Hm].
  - apply batch_write_bytes_ptb64_inside; assumption.
  - apply batch_write_bytes_serial_inside; assumption.
Qed.

Lemma sample_count_write_bytes_list (l : list (list byte)) (len : nat) :
  Forall (fun bs => length bs = len) l ->
  sample_count (WriteBytes <$> l) = 8 * len * length l.
Proof.
  induction 1 as [|bs l Hbs _ IH]; [cbn; lia|].
  rewrite fmap_cons. change (WriteBytes bs :: (WriteBytes <$> l))
    with ([WriteBytes bs] ++ (WriteBytes <$> l)).
  rewrite sample_count_app, sample_count_write_bytes, IH, Hbs.
  cbn [length]. lia.
Qed.

(** Either branch hands [64 * num_major_u64] sample bits to each writer. *)
Lemma batch_write_bytes_calls_sample_count (fmt : SampleFormat) (n : nat)
    (t : simd_bit_table) (m k : nat) :
  table_wf t ->
  (if decide (fmt = SAMPLE_FORMAT_PTB64)
   then 8 * n <= num_minor_u8_padded t /\ m <= num_major_bits_padded t
   else n <= num_minor_bits_padded t /\ m <= num_major_u64_padded t) ->
  k < n ->
  sample_count
    (if decide (fmt = SAMPLE_FORMAT_PTB64)
     then (fun w => WriteBytes (packed_group t k w)) <$> seq 0 m
     else [WriteBytes (transposed_run t m k)])
  = 64 * m.
Proof.
  intros Hwf Hpre Hk.
  destruct (decide (fmt = SAMPLE_FORMAT_PTB64)) as [->|Hne];
    destruct Hpre as [Hn Hm].
  - rewrite (list_fmap_compose (packed_group t k) WriteBytes).
    rewrite (sample_count_write_bytes_list _ 8).
    + rewrite length_fmap, length_seq. lia.
    + apply list.Forall_forall. intros bs Hbs.
      apply list_elem_of_fmap in Hbs as (w & -> & Hw).
      apply elem_of_seq in Hw.
      destruct (packed_group_inside t n m k w)
        as (_ & _ & Hin); [assumption || lia ..|].
      apply length_slice. lia.
  - rewrite sample_count_write_bytes.
    destruct (transposed_run_inside t n m k)
      as (_ & Hin); [assumption..|].
    unfold transposed_run. rewrite length_slice by exact Hin. lia.
Qed.

End Bulk.

(** X3.  On a well-formed table that covers the call (64 minor bits per
    writer and [num_major_u64] major rows under the packed format; one minor
    index per writer and [64 * num_major_u64] major rows otherwise),
    [batch_write_bytes] succeeds, keeps the format and the sizes of the
    object, and makes every writer [k] handle exactly its own calls: the
    groups at offsets [8k + stride*w], [w] ascending, under the packed
    format, and the single run of row [k] of the transposed table otherwise.
    What writer [k] emits is appended to the stream it is bound to. *)
Theorem batch_write_bytes_effect
    {SampleFormat : Type} `{EqDecision SampleFormat}
    (SAMPLE_FORMAT_PTB64 : SampleFormat)
    {W : Type} `{MeasureRecordWriter W}
    (self : MeasureRecordBatchWriter SampleFormat W)
    (table : simd_bit_table) (num_major_u64 : nat) :
  table_wf table ->
  (if decide (output_format self = SAMPLE_FORMAT_PTB64)
   then 8 * length (writers self) <= num_minor_u8_padded table
        /\ num_major_u64 <= num_major_bits_padded table
   else length (writers self) <= num_minor_bits_padded table
        /\ num_major_u64 <= num_major_u64_padded table) ->
  exists self',
    batch_write_bytes SAMPLE_FORMAT_PTB64 self table num_major_u64 = Some self'
    /\ output_format self' = output_format self
    /\ length (writers self') = length (writers self)
    /\ length (temporary_files self') = length (temporary_files self)
    /\ forall k w, writers self !! k = Some w ->
         let cs := if decide (output_format self = SAMPLE_FORMAT_PTB64)
                   then (fun w => WriteBytes (packed_group table k w))
                          <$> seq 0 num_major_u64
                   else [WriteBytes (transposed_run table num_major_u64 k)] in
         writers self' !! k = Some (run_calls cs w).1
         /\ stream k self'
            = (fun f => f ++ (run_calls cs w).2) <$> stream k self.
Proof.
  intros Hwf Hpre. unfold batch_write_bytes.
  rewrite (batch_write_bytes_calls_fan_out SAMPLE_FORMAT_PTB64) by assumption.
  cbn [mbind option_bind].
  destruct (perform_fan_out (length (writers self))
              (fun k =>
                 if decide (output_format self = SAMPLE_FORMAT_PTB64)
                 then (fun w => WriteBytes (packed_group table k w))
                        <$> seq 0 num_major_u64
                 else [WriteBytes (transposed_run table num_major_u64 k)])
              self eq_refl)
    as (self' & Hp & Hfmt & Hlen & Htf & Heff).
  exists self'. repeat (split; [assumption|]).
  intros k w Hw. exact (Heff k w Hw).
Qed.

Lemma example_rows_table_wf : table_wf example_rows_table.
Proof. split; vm_compute; reflexivity. Defined.

Lemma batch_write_bytes_effect_witness :
  exists self',
    batch_write_bytes TRANSPOSED_PACKED_64
      (construct (W := unit) [Byte.x2a] [tt] TRANSPOSED_PACKED_64)
      example_rows_table 3
    = Some self'
    /\ out self'
       = [Byte.x2a] ++ replicate 8 Byte.x01 ++ replicate 8 Byte.x02
                    ++ replicate 8 Byte.x03.
Proof.
  destruct (batch_write_bytes_effect TRANSPOSED_PACKED_64
              (construct (W := unit) [Byte.x2a] [tt] TRANSPOSED_PACKED_64)
              example_rows_table 3 example_rows_table_wf)
    as (self' & Hrun & _ & _ & _ & Heff); [vm_compute; lia|].
  exists self'. split; [exact Hrun|].
  destruct (Heff 0 tt eq_refl) as [_ H0].
  vm_compute in H0. injection H0 as H0. exact H0.
Defined.

(** X4.  With writers that record the calls they receive, a call to
    [batch_write_bytes] on a well-formed table that covers it makes the
    sample count of every writer grow by exactly [64 * num_major_u64],
    under the packed format as under the others. *)
Theorem batch_write_bytes_sample_count
    {SampleFormat : Type} `{EqDecision SampleFormat}
    (SAMPLE_FORMAT_PTB64 : SampleFormat)
    (self : MeasureRecordBatchWriter SampleFormat (list call))
    (table : simd_bit_table) (num_major_u64 : nat) :
  table_wf table ->
  (if decide (output_format self = SAMPLE_FORMAT_PTB64)
   then 8 * length (writers self) <= num_minor_u8_padded table
        /\ num_major_u64 <= num_major_bits_padded table
   else length (writers self) <= num_minor_bits_padded table
        /\ num_major_u64 <= num_major_u64_padded table) ->
  exists self',
    batch_write_bytes SAMPLE_FORMAT_PTB64 self table num_major_u64 = Some self'
    /\ forall k w, writers self !! k = Some w ->
         exists w', writers self' !! k = Some w'
           /\ sample_count w' = sample_count w + 64 * num_major_u64.
Proof.
  intros Hwf Hpre. unfold batch_write_bytes.
  rewrite (batch_write_bytes_calls_fan_out SAMPLE_FORMAT_PTB64) by assumption.
  cbn [mbind option_bind].
  destruct (perform_fan_out (length (writers self))
              (fun k =>
                 if decide (output_format self = SAMPLE_FORMAT_PTB64)
                 then (fun w => WriteBytes (packed_group table k w))
                        <$> seq 0 num_major_u64
                 else [WriteBytes (transposed_run table num_major_u64 k)])
              self eq_refl)
    as (self' & Hp & _ & _ & _ & Heff).
  exists self'. split; [exact Hp|]. intros k w Hw.
  destruct (Heff k w Hw) as [Hwk _]. eexists. split; [exact Hwk|].
  rewrite run_calls_log, sample_count_app. f_equal.
  apply (batch_write_bytes_calls_sample_count SAMPLE_FORMAT_PTB64
           (output_format self) (length (writers self))); try assumption.
  eapply lookup_lt_Some, Hw.
Qed.

Lemma batch_write_bytes_sample_count_witness :
  exists self',
    batch_write_bytes TRANSPOSED_PACKED_64
      (construct [] [[]; [WriteBit true]] SERIAL) example_table 1
    = Some self'
    /\ forall k w, [[]; [WriteBit true]] !! k = Some w ->
         exists w', writers self' !! k = Some w'
           /\ sample_count w' = sample_count w + 64 * 1.
Proof.
  refine (batch_write_bytes_sample_count TRANSPOSED_PACKED_64
            (construct [] [[]; [WriteBit true]] SERIAL) example_table 1
            example_table_wf _).
  vm_compute. lia.
Defined.

(** ** What the fan-out routines never do *)

Lemma perform_append_only
    {SampleFormat W : Type} `{MeasureRecordWriter W}
    (cs : list (nat * call)) (self self' : MeasureRecordBatchWriter SampleFormat W) :
  perform cs self = Some self' ->
  output_format self' = output_format self
  /\ length (writers self') = length (writers self)
  /\ length (temporary_files self') = length (temporary_files self)
  /\ out self `prefix_of` out self'
  /\ forall j f, temporary_files self !! j = Some f ->
       exists f', temporary_files self' !! j = Some f' /\ f `prefix_of` f'.
Proof.
  intros Hp. destruct (perform_frame _ _ _ Hp) as [Hfmt Hlen].
  split; [exact Hfmt|]. split; [exact Hlen|].
  split; [apply (perform_temporary_files_length _ _ _ Hp)|]. split.
  - pose proof (perform_stream cs self self' 0 Hp) as H0.
    cbn in H0. injection H0 as ->. by eexists.
  - intros j f Hf. pose proof (perform_stream cs self self' (S j) Hp) as Hj.
    cbn [stream] in Hj. rewrite Hf in Hj. cbn in Hj.
    eexists. split; [exact Hj|]. by eexists.
Qed.

(** X5.  Whenever [batch_write_bit] or [batch_write_bytes] returns, on any
    input and with any writers, the format, the number of writers and the
    number of temporary files are the same as before, and every stream has
    only been appended to: what [out] and each temporary file held before is
    a prefix of what it holds after. *)
Theorem fan_out_routines_append_only
    {SampleFormat : Type} `{EqDecision SampleFormat}
    (SAMPLE_FORMAT_PTB64 : SampleFormat)
    {W : Type} `{MeasureRecordWriter W}
    (self self' : MeasureRecordBatchWriter SampleFormat W)
    (bits : list byte) (table : simd_bit_table) (num_major_u64 : nat) :
  batch_write_bit SAMPLE_FORMAT_PTB64 self bits = Some self'
  \/ batch_write_bytes SAMPLE_FORMAT_PTB64 self table num_major_u64 = Some self' ->
  output_format self' = output_format self
  /\ length (writers self') = length (writers self)
  /\ length (temporary_files self') = length (temporary_files self)
  /\ out self `prefix_of` out self'
  /\ forall j f, temporary_files self !! j = Some f ->
       exists f', temporary_files self' !! j = Some f' /\ f `prefix_of` f'.
Proof.
  unfold batch_write_bit, batch_write_bytes. intros [Hrun|Hrun].
  - destruct (batch_write_bit_calls _ _ _ _) as [cs|]; [|discriminate].
    exact (perform_append_only cs self self' Hrun).
  - destruct (batch_write_bytes_calls _ _ _ _ _) as [cs|]; [|discriminate].
    exact (perform_append_only cs self self' Hrun).
Qed.

Lemma fan_out_routines_append_only_witness :
  exists self',
    batch_write_bytes TRANSPOSED_PACKED_64
      (construct (W := unit) [Byte.x2a] [tt; tt] SERIAL) example_table 1
    = Some self'
    /\ [Byte.x2a] `prefix_of` out self'.
Proof.
  destruct (batch_write_bytes TRANSPOSED_PACKED_64
              (construct (W := unit) [Byte.x2a] [tt; tt] SERIAL)
              example_table 1) as [self'|] eqn:Hrun;
    [|vm_compute in Hrun; discriminate].
  exists self'. split; [reflexivity|].
  exact (proj1 (proj2 (proj2 (proj2
           (fan_out_routines_append_only TRANSPOSED_PACKED_64
              (construct (W := unit) [Byte.x2a] [tt; tt] SERIAL) self'
              example_row example_table 1 (or_intror Hrun)))))).
Defined.

Lemma read_range_length (buf : list byte) (p len : nat) (bs : list byte) :
  read_range buf p (p + len) = Some bs -> length bs = len.
Proof.
  unfold read_range. destruct (decide (p + len <= p)) as [Hle|Hgt].
  - intros [= <-]. cbn. lia.
  - destruct (decide (p + len <= length buf)) as [Hin|]; [|discriminate].
    intros [= <-]. rewrite length_slice by lia. lia.
Qed.

(** X6.  Whatever the row or the table, every call the two routines issue
    goes to a writer of the vector and appends samples: [batch_write_bit]
    issues only [write_bit], or only [write_bytes] of 8 bytes under the
    packed format; [batch_write_bytes] issues only [write_bytes], of 8 bytes
    under the packed format and of [num_major_u64 * 8] bytes (as computed
    in [size_t]) otherwise.  Neither starts a section nor finalises a
    writer. *)
Theorem fan_out_routines_only_append_samples
    {SampleFormat : Type} `{EqDecision SampleFormat}
    (SAMPLE_FORMAT_PTB64 fmt : SampleFormat)
    (n : nat) (bits : list byte) (table : simd_bit_table)
    (num_major_u64 : nat) (cs : list (nat * call)) :
  (batch_write_bit_calls SAMPLE_FORMAT_PTB64 fmt n bits = Some cs ->
   Forall (fun d : nat * call =>
             d.1 < n
             /\ if decide (fmt = SAMPLE_FORMAT_PTB64)
                then exists bs, d.2 = WriteBytes bs /\ length bs = 8
                else exists b, d.2 = WriteBit b) cs)
  /\ (batch_write_bytes_calls SAMPLE_FORMAT_PTB64 fmt n table num_major_u64
      = Some cs ->
      Forall (fun d : nat * call =>
                d.1 < n
                /\ exists bs, d.2 = WriteBytes bs
                     /\ length bs
                        = if decide (fmt = SAMPLE_FORMAT_PTB64) then 8
                          else size_t_mul num_major_u64 8) cs).
Proof.
  assert (forall (Q : nat * call -> Prop) (body : nat -> option (list (nat * call))) cs',
            (forall i c, body i = Some c ->
                         Forall (fun d : nat * call => d.1 = i /\ Q d) c) ->
            for_loop n 0 body = Some cs' ->
            Forall (fun d : nat * call => d.1 < n /\ Q d) cs') as Hloop.
  { intros Q body cs' Hbody Hfor.
    eapply list.Forall_impl;
      [apply (for_loop_Forall (fun i d => d.1 = i /\ Q d) n 0 body cs');
       [|exact Hfor]|].
    - intros i c _. apply Hbody.
    - intros d (i & Hi & -> & HQ). split; [lia|exact HQ]. }
  split.
  - unfold batch_write_bit_calls.
    destruct (decide (fmt = SAMPLE_FORMAT_PTB64)) as [->|Hne].
    + pose proof (batch_write_bit_ptb64_calls SAMPLE_FORMAT_PTB64 n bits) as Hc.
      unfold batch_write_bit_calls in Hc.
      rewrite decide_True in Hc by reflexivity. rewrite Hc.
      destruct (decide (8 * n <= length bits)) as [Hin|]; [|discriminate].
      intros [= <-]. rewrite fan_out_singleton.
      apply list.Forall_forall. intros d Hd.
      apply list_elem_of_fmap in Hd as (k & -> & Hk).
      apply elem_of_seq in Hk. cbn [fst snd]. split; [lia|].
      eexists. split; [reflexivity|]. apply length_slice. lia.
    + apply Hloop. intros i c Hc.
      destruct (bits_get bits i) as [b|]; [|discriminate].
      injection Hc as <-. repeat constructor. by eexists.
  - unfold batch_write_bytes_calls.
    destruct (decide (fmt = SAMPLE_FORMAT_PTB64)) as [->|Hne].
    + apply Hloop. intros k c Hc.
      eapply list.Forall_impl;
        [eapply (for_loop_Forall
                   (fun _ d => d.1 = k
                               /\ exists bs, d.2 = WriteBytes bs /\ length bs = 8)
                   num_major_u64 0); [|exact Hc]|].
      * intros w c' _ Hc'. cbv zeta beta in Hc'.
        destruct (read_range _ _ _) as [bs|] eqn:Hbs; [|discriminate].
        injection Hc' as <-. repeat constructor.
        exists bs. split; [reflexivity|]. eapply read_range_length, Hbs.
      * intros d (_ & _ & Hd). exact Hd.
    + apply Hloop. intros k c Hc. cbv zeta in Hc.
      destruct (read_range _ _ _) as [bs|] eqn:Hbs; [|discriminate].
      injection Hc as <-. repeat constructor.
      exists bs. split; [reflexivity|]. eapply read_range_length, Hbs.
Qed.

Lemma fan_out_routines_only_append_samples_witness :
  Forall (fun d : nat * call =>
            d.1 < 2 /\ exists bs, d.2 = WriteBytes bs /\ length bs = 8)
    [(0, WriteBytes (slice (data example_table) 0 8));
     (1, WriteBytes (slice (data example_table) 8 8))].
Proof.
  refine (proj2 (fan_out_routines_only_append_samples TRANSPOSED_PACKED_64
                   TRANSPOSED_PACKED_64 2 example_row example_table 1 _) _).
  vm_compute. reflexivity.
Defined.

(** ** The bulk call against single-row calls *)

Lemma lookup_slice_ge (buf : list byte) (off len i : nat) :
  len <= i -> slice buf off len !! i = None.
Proof. intros Hi. unfold slice. apply lookup_take_ge. exact Hi. Qed.

Lemma slice_slice (buf : list byte) (a L b l : nat) :
  b + l <= L -> slice (slice buf a L) b l = slice buf (a + b) l.
Proof.
  intros Hle. apply list_eq. intros i.
  destruct (decide (i < l)) as [Hi|Hi].
  - rewrite !lookup_slice by lia. f_equal. lia.
  - rewrite !lookup_slice_ge by lia. reflexivity.
Qed.

Lemma calls_of_bind_rows {A : Type} (rows : list A) (g : A -> nat -> list call)
    (n k : nat) :
  calls_of k (rows ≫= fun row => fan_out n (g row))
  = rows ≫= fun row => if decide (k < n) then g row k else [].
Proof.
  induction rows as [|row rows IH]; [reflexivity|].
  rewrite !bind_cons, calls_of_app, IH. f_equal.
  unfold fan_out. rewrite calls_of_bind_seq.
  destruct (decide (k < n)).
  - rewrite decide_True by lia. reflexivity.
  - rewrite decide_False by lia. reflexivity.
Qed.

Lemma bind_nil_const {A B : Type} (l : list A) :
  l ≫= (fun _ => @nil B) = [].
Proof. induction l as [|x l IH]; [reflexivity|]. rewrite bind_cons. exact IH. Qed.

Section BulkAgainstRows.

Context {SampleFormat : Type} `{EqDecision SampleFormat}.
Variable SAMPLE_FORMAT_PTB64 : SampleFormat.
Context {W : Type} `{MeasureRecordWriter W}.

Lemma run_operations_calls (os : list operation)
    (self : MeasureRecordBatchWriter SampleFormat W) :
  run_operations SAMPLE_FORMAT_PTB64 os self
  = cs ← operations_calls SAMPLE_FORMAT_PTB64 (output_format self)
           (length (writers self)) os;
    perform cs self.
Proof.
  revert self. induction os as [|o os IH]; intros self; [reflexivity|].
  cbn [run_operations operations_calls]. rewrite run_operation_calls.
  destruct (operation_calls _ _ _ o) as [cs|]; [|reflexivity].
  cbn [mbind option_bind].
  destruct (perform cs self) as [self1|] eqn:Hp.
  - cbn [mbind option_bind]. rewrite IH.
    destruct (perform_frame _ _ _ Hp) as (-> & ->).
    destruct (operations_calls _ _ _ os) as [rest|]; [|reflexivity].
    cbn [mbind option_bind]. rewrite perform_app, Hp. reflexivity.
  - cbn [mbind option_bind].
    destruct (operations_calls _ _ _ os) as [rest|]; [|reflexivity].
    cbn [mbind option_bind]. rewrite perform_app, Hp. reflexivity.
Qed.

Lemma ptb64_rows_calls (n : nat) (rows : list (list byte)) :
  Forall (fun row => 8 * n <= length row) rows ->
  operations_calls SAMPLE_FORMAT_PTB64 SAMPLE_FORMAT_PTB64 n
    (Batch_write_bit <$> rows)
  = Some (rows ≫= fun row =>
            fan_out n (fun k => [WriteBytes (slice row (8 * k) 8)])).
Proof.
  induction 1 as [|row rows Hrow _ IH]; [reflexivity|].
  rewrite fmap_cons. cbn [operations_calls operation_calls].
  rewrite IH, batch_write_bit_ptb64_calls, decide_True by exact Hrow.
  cbn [mbind option_bind]. rewrite bind_cons. reflexivity.
Qed.

Lemma length_table_row (t : simd_bit_table) (w : nat) :
  table_wf t -> w < num_major_bits_padded t ->
  length (table_row t w) = num_minor_u8_padded t.
Proof.
  intros [Hlen _] Hw. unfold table_row, row_u8. apply length_slice.
  rewrite Hlen.
  transitivity (S w * num_minor_u8_padded t); [lia|].
  apply Nat.mul_le_mono_r. lia.
Qed.

End BulkAgainstRows.

(** X7.  Under the packed format, on a well-formed table that holds 64
    minor bits per writer and [num_major_u64] major rows,
    [batch_write_bytes(table, num_major_u64)] succeeds and leaves the object
    exactly as [num_major_u64] successive calls of [batch_write_bit] on the
    major rows [0 .. num_major_u64 - 1] of the table do, whatever the
    writers are.  The bulk call goes writer by writer and the single-row
    calls go row by row; the result is the same. *)
Theorem ptb64_bulk_equals_single_rows
    {SampleFormat : Type} `{EqDecision SampleFormat}
    (SAMPLE_FORMAT_PTB64 : SampleFormat)
    {W : Type} `{MeasureRecordWriter W}
    (self : MeasureRecordBatchWriter SampleFormat W)
    (table : simd_bit_table) (num_major_u64 : nat) :
  output_format self = SAMPLE_FORMAT_PTB64 ->
  table_wf table ->
  8 * length (writers self) <= num_minor_u8_padded table ->
  num_major_u64 <= num_major_bits_padded table ->
  is_Some (batch_write_bytes SAMPLE_FORMAT_PTB64 self table num_major_u64)
  /\ batch_write_bytes SAMPLE_FORMAT_PTB64 self table num_major_u64
     = run_operations SAMPLE_FORMAT_PTB64
         (Batch_write_bit <$> (table_row table <$> seq 0 num_major_u64)) self.
Proof.
  intros Hfmt Hwf Hn Hm.
  set (n := length (writers self)) in *.
  assert (batch_write_bytes SAMPLE_FORMAT_PTB64 self table num_major_u64
          = perform (fan_out n (fun k =>
                       (fun w => WriteBytes (packed_group table k w))
                         <$> seq 0 num_major_u64)) self) as Hbulk.
  { unfold batch_write_bytes, batch_write_bytes_calls. rewrite Hfmt.
    rewrite decide_True by reflexivity.
    rewrite batch_write_bytes_ptb64_inside by assumption. reflexivity. }
  split.
  { rewrite Hbulk. apply perform_is_Some, fan_out_indices. }
  rewrite Hbulk, run_operations_calls, Hfmt. fold n.
  rewrite ptb64_rows_calls.
  - cbn [mbind option_bind]. apply perform_ext. intros k.
    rewrite calls_of_bind_rows. unfold fan_out. rewrite calls_of_bind_seq.
    destruct (decide (k < n)) as [Hk|Hk].
    + rewrite decide_True by lia.
      rewrite (bind_singleton_fmap (fun row => WriteBytes (slice row (8 * k) 8))).
      rewrite <- list_fmap_compose.
      apply list.Forall_fmap_ext_1, list.Forall_forall. intros w Hw.
      apply elem_of_seq in Hw. cbn [compose]. f_equal.
      unfold table_row, packed_group, row_u8.
      rewrite slice_slice by lia. f_equal. lia.
    + rewrite decide_False by lia. symmetry. apply bind_nil_const.
  - apply list.Forall_forall. intros row Hrow.
    apply list_elem_of_fmap in Hrow as (w & -> & Hw).
    apply elem_of_seq in Hw.
    rewrite length_table_row by (assumption || lia). exact Hn.
Qed.

Lemma ptb64_bulk_equals_single_rows_witness :
  batch_write_bytes TRANSPOSED_PACKED_64
    (construct (W := unit) [] [tt; tt] TRANSPOSED_PACKED_64) example_table 3
  = run_operations TRANSPOSED_PACKED_64
      [Batch_write_bit (table_row example_table 0);
       Batch_write_bit (table_row example_table 1);
       Batch_write_bit (table_row example_table 2)]
      (construct (W := unit) [] [tt; tt] TRANSPOSED_PACKED_64).
Proof.
  refine (proj2 (ptb64_bulk_equals_single_rows TRANSPOSED_PACKED_64
                   (construct (W := unit) [] [tt; tt] TRANSPOSED_PACKED_64)
                   example_table 3 eq_refl example_table_wf _ _)).
  - vm_compute. lia.
  - vm_compute. lia.
Defined.

Lemma recorded_bits_app (cs1 cs2 : list call) :
  recorded_bits (cs1 ++ cs2) = recorded_bits cs1 ++ recorded_bits cs2.
Proof. unfold recorded_bits. apply bind_app. Qed.

(** X8.  Under any format other than the packed one, with writers that
    record the calls they receive: [64 * m] successive calls of
    [batch_write_bit] on rows of equal length, and one call of
    [batch_write_bytes] with [num_major_u64 = m] on the table made of these
    rows, both succeed and leave every writer with the same recorded
    samples, in the same order. *)
Theorem serial_rows_equal_bulk_blocks
    {SampleFormat : Type} `{EqDecision SampleFormat}
    (SAMPLE_FORMAT_PTB64 : SampleFormat)
    (self : MeasureRecordBatchWriter SampleFormat (list call))
    (m c : nat) (rows : list (list byte)) :
  output_format self <> SAMPLE_FORMAT_PTB64 ->
  length rows = 64 * m ->
  Forall (fun row => length row = 8 * c) rows ->
  fits_size_t (64 * m * (8 * c)) ->
  length (writers self) <= 64 * c ->
  exists s1 s2,
    run_operations SAMPLE_FORMAT_PTB64 (Batch_write_bit <$> rows) self = Some s1
    /\ batch_write_bytes SAMPLE_FORMAT_PTB64 self
         {| num_major_u64_padded := m; num_minor_u64_padded := c;
            data := concat rows |} m
       = Some s2
    /\ forall k w, writers self !! k = Some w ->
         exists w1 w2,
           writers s1 !! k = Some w1 /\ writers s2 !! k = Some w2
           /\ recorded_bits w1 = recorded_bits w2.
Proof.
  intros Hfmt Hlen Hrows Hfit Hn.
  set (n := length (writers self)) in *.
  set (t := {| num_major_u64_padded := m; num_minor_u64_padded := c;
               data := concat rows |}).
  assert (table_wf t) as Hwf.
  { unfold table_wf, num_major_bits_padded, num_minor_u8_padded. cbn.
    rewrite (length_concat_const rows (8 * c) Hrows), Hlen.
    split; [reflexivity|exact Hfit]. }
  (* the single-row calls *)
  assert (operations_calls SAMPLE_FORMAT_PTB64 (output_format self) n
            (Batch_write_bit <$> rows)
          = Some (rows ≫= fun row =>
                    fan_out n (fun k => [WriteBit (bit_at row k)]))) as Hcs1.
  { apply serial_rows_calls; [exact Hfmt|].
    eapply list.Forall_impl; [exact Hrows|]. cbn. intros row ->. lia. }
  destruct (perform_is_Some
              (rows ≫= fun row => fan_out n (fun k => [WriteBit (bit_at row k)]))
              self) as [s1 Hs1].
  { eapply (operations_calls_indices SAMPLE_FORMAT_PTB64), Hcs1. }
  (* the bulk call *)
  destruct (perform_fan_out n (fun k => [WriteBytes (transposed_run t m k)])
              self eq_refl) as (s2 & Hs2 & _ & _ & _ & Heff).
  exists s1, s2. split; [|split].
  - rewrite run_operations_calls. fold n. rewrite Hcs1. exact Hs1.
  - unfold batch_write_bytes, batch_write_bytes_calls.
    rewrite decide_False by exact Hfmt. fold n.
    rewrite batch_write_bytes_serial_inside by (assumption || cbn; lia).
    exact Hs2.
  - intros k w Hw.
    assert (k < n) as Hk by (eapply lookup_lt_Some, Hw).
    destruct (Heff k w Hw) as [Hw2 _].
    eexists _, _. split; [|split; [exact Hw2|]].
    + rewrite (perform_writers _ _ _ k Hs1), Hw. reflexivity.
    + rewrite !run_calls_log, !recorded_bits_app. f_equal.
      rewrite serial_rows_recorded by exact Hk.
      change (recorded_bits [WriteBytes ?bs]) with (bits_of_bytes bs ++ []).
      rewrite app_nil_r, transposed_run_bits by (cbn; lia).
      apply list_eq. intros j. rewrite !list_lookup_fmap.
      destruct (rows !! j) as [row|] eqn:Hj.
      * apply lookup_lt_Some in Hj as Hjm.
        rewrite lookup_seq_lt by lia. cbn. f_equal.
        rewrite table_bit_bit_at. symmetry.
        apply (bit_at_concat_const rows (8 * c) j k row Hrows Hj). lia.
      * apply lookup_ge_None in Hj.
        rewrite lookup_seq_ge by lia. reflexivity.
Qed.

Lemma serial_rows_equal_bulk_blocks_witness :
  exists s1 s2,
    run_operations TRANSPOSED_PACKED_64 (Batch_write_bit <$> example_rows)
      (construct [] [[]; [WriteBit true]] SERIAL) = Some s1
    /\ batch_write_bytes TRANSPOSED_PACKED_64
         (construct [] [[]; [WriteBit true]] SERIAL)
         {| num_major_u64_padded := 1; num_minor_u64_padded := 1;
            data := concat example_rows |} 1
       = Some s2
    /\ forall k w, [[]; [WriteBit true]] !! k = Some w ->
         exists w1 w2,
           writers s1 !! k = Some w1 /\ writers s2 !! k = Some w2
           /\ recorded_bits w1 = recorded_bits w2.
Proof.
  refine (serial_rows_equal_bulk_blocks TRANSPOSED_PACKED_64
            (construct [] [[]; [WriteBit true]] SERIAL) 1 1 example_rows
            _ _ _ _ _).
  - discriminate.
  - vm_compute. reflexivity.
  - vm_compute. repeat constructor.
  - vm_compute. reflexivity.
  - vm_compute. lia.
Defined.

(** ** Bounds of the packed bulk call *)

Section PackedBounds.

Context {SampleFormat : Type} `{EqDecision SampleFormat}.
Variable SAMPLE_FORMAT_PTB64 : SampleFormat.

Lemma batch_write_bytes_ptb64_Some (t : simd_bit_table) (n m : nat) :
  fits_size_t (8 * n) -> fits_size_t (num_minor_u8_padded t * m) ->
  n = 0 \/ m = 0
  \/ 8 * n + num_minor_u8_padded t * (m - 1) <= length (data t) ->
  batch_write_bytes_ptb64 t m n
  = Some (fan_out n (fun k =>
            (fun w => WriteBytes (packed_group t k w)) <$> seq 0 m)).
Proof.
  intros Hfn Hfm Hin. unfold batch_write_bytes_ptb64, fan_out.
  apply for_loop_Some. intros k Hk.
  rewrite (for_loop_Some _ _ _
             (fun w => [(k, WriteBytes (packed_group t k w))])).
  - rewrite (bind_singleton_fmap
               (fun w => (k, WriteBytes (packed_group t k w)))).
    rewrite <- list_fmap_compose. reflexivity.
  - intros w Hw.
    destruct Hin as [->|[->|Hin]]; [lia..|].
    assert (num_minor_u8_padded t * w <= num_minor_u8_padded t * (m - 1))
      as Hrow by (apply Nat.mul_le_mono_l; lia).
    assert (num_minor_u8_padded t * (m - 1) <= num_minor_u8_padded t * m)
      as Hrow' by (apply Nat.mul_le_mono_l; lia).
    rewrite (size_t_mul_fits k 8)
      by (apply (fits_size_t_le _ (8 * n)); [lia|exact Hfn]).
    rewrite (size_t_mul_fits (num_minor_u8_padded t) w)
      by (apply (fits_size_t_le _ (num_minor_u8_padded t * m));
          [lia|exact Hfm]).
    replace (k * 8) with (8 * k) by lia.
    rewrite read_range_inside by lia. reflexivity.
Qed.

Lemma batch_write_bytes_ptb64_None (t : simd_bit_table) (n m : nat) :
  fits_size_t (8 * n) -> fits_size_t (num_minor_u8_padded t * m) ->
  0 < n -> 0 < m ->
  length (data t) < 8 * n + num_minor_u8_padded t * (m - 1) ->
  batch_write_bytes_ptb64 t m n = None.
Proof.
  intros Hfn Hfm Hn Hm Hout. unfold batch_write_bytes_ptb64.
  apply (for_loop_None _ _ (n - 1)); [lia|].
  apply (for_loop_None _ _ (m - 1)); [lia|]. cbv zeta.
  assert (num_minor_u8_padded t * (m - 1) <= num_minor_u8_padded t * m)
    as Hrow by (apply Nat.mul_le_mono_l; lia).
  rewrite (size_t_mul_fits (n - 1) 8)
    by (apply (fits_size_t_le _ (8 * n)); [lia|exact Hfn]).
  rewrite (size_t_mul_fits (num_minor_u8_padded t) (m - 1))
    by (apply (fits_size_t_le _ (num_minor_u8_padded t * m)); [lia|exact Hfm]).
  rewrite read_range_outside by lia. reflexivity.
Qed.

End PackedBounds.

(** X9.  Under the packed format, when the products [8 N] and
    [stride * num_major_u64] fit in [size_t], [batch_write_bytes] succeeds
    exactly when there is no writer, or [num_major_u64] is 0, or the raw
    buffer reaches the end of the last writer's group in major row
    [num_major_u64 - 1], that is holds at least
    [8 N + stride * (num_major_u64 - 1)] bytes. *)
Theorem ptb64_batch_write_bytes_succeeds_iff
    {SampleFormat : Type} `{EqDecision SampleFormat}
    (SAMPLE_FORMAT_PTB64 : SampleFormat)
    {W : Type} `{MeasureRecordWriter W}
    (self : MeasureRecordBatchWriter SampleFormat W)
    (table : simd_bit_table) (num_major_u64 : nat) :
  output_format self = SAMPLE_FORMAT_PTB64 ->
  fits_size_t (8 * length (writers self)) ->
  fits_size_t (num_minor_u8_padded table * num_major_u64) ->
  is_Some (batch_write_bytes SAMPLE_FORMAT_PTB64 self table num_major_u64)
  <-> length (writers self) = 0 \/ num_major_u64 = 0
      \/ 8 * length (writers self)
         + num_minor_u8_padded table * (num_major_u64 - 1)
         <= length (data table).
Proof.
  intros Hfmt Hfn Hfm. unfold batch_write_bytes, batch_write_bytes_calls.
  rewrite Hfmt, decide_True by reflexivity. split.
  - intros Hsome.
    destruct (decide (length (writers self) = 0)) as [|Hn]; [by left|].
    destruct (decide (num_major_u64 = 0)) as [|Hm]; [by right; left|].
    right. right.
    destruct (decide (8 * length (writers self)
                      + num_minor_u8_padded table * (num_major_u64 - 1)
                      <= length (data table))) as [|Hout]; [assumption|].
    rewrite batch_write_bytes_ptb64_None in Hsome by (assumption || lia).
    destruct Hsome as [? [=]].
  - intros Hin. rewrite batch_write_bytes_ptb64_Some by assumption.
    cbn [mbind option_bind]. apply perform_is_Some, fan_out_indices.
Qed.

Lemma ptb64_batch_write_bytes_succeeds_iff_witness :
  is_Some (batch_write_bytes TRANSPOSED_PACKED_64
             (construct (W := unit) [] [tt; tt] TRANSPOSED_PACKED_64)
             example_table 64)
  /\ ~ is_Some (batch_write_bytes TRANSPOSED_PACKED_64
                  (construct (W := unit) [] [tt; tt] TRANSPOSED_PACKED_64)
                  example_table 65).
Proof.
  split.
  - apply (ptb64_batch_write_bytes_succeeds_iff TRANSPOSED_PACKED_64);
      [reflexivity|vm_compute; reflexivity..|].
    right. right. vm_compute. lia.
  - intros Hsome.
    apply (ptb64_batch_write_bytes_succeeds_iff TRANSPOSED_PACKED_64) in Hsome;
      [|reflexivity|vm_compute; reflexivity..].
    destruct Hsome as [Hn|[Hm|Hin]]; [discriminate..|].
    vm_compute in Hin. lia.
Defined.

(** ** Padding of the row *)

Lemma for_loop_ext (n k0 : nat) (body body' : nat -> option (list (nat * call))) :
  (forall k, k0 <= k < k0 + n -> body k = body' k) ->
  for_loop n k0 body = for_loop n k0 body'.
Proof.
  revert k0. induction n as [|n IH]; intros k0 Hext; [reflexivity|].
  cbn [for_loop]. rewrite Hext by lia.
  rewrite (IH (S k0)) by (intros k Hk; apply Hext; lia). reflexivity.
Qed.

Lemma slice_take (buf : list byte) (c off len : nat) :
  off + len <= c -> slice (take c buf) off len = slice buf off len.
Proof.
  intros Hle. apply list_eq. intros i.
  destruct (decide (i < len)) as [Hi|Hi].
  - rewrite !lookup_slice by lia. apply lookup_take_lt. lia.
  - rewrite !lookup_slice_ge by lia. reflexivity.
Qed.

(** X10.  [batch_write_bit] looks only at the part of the row that belongs
    to the writers: two rows that agree on their first [8 N] bytes (packed
    format), or on their first [N] bits (other formats), have the same
    effect on the object, failure included; whatever padding follows is
    never handed to a writer. *)
Theorem batch_write_bit_ignores_padding
    {SampleFormat : Type} `{EqDecision SampleFormat}
    (SAMPLE_FORMAT_PTB64 : SampleFormat)
    {W : Type} `{MeasureRecordWriter W}
    (self : MeasureRecordBatchWriter SampleFormat W) (bits bits' : list byte) :
  (if decide (output_format self = SAMPLE_FORMAT_PTB64)
   then take (8 * length (writers self)) bits
        = take (8 * length (writers self)) bits'
   else forall k, k < length (writers self) ->
                  bits_get bits k = bits_get bits' k) ->
  batch_write_bit SAMPLE_FORMAT_PTB64 self bits
  = batch_write_bit SAMPLE_FORMAT_PTB64 self bits'.
Proof.
  intros Hsame. unfold batch_write_bit.
  set (n := length (writers self)) in *.
  assert (batch_write_bit_calls SAMPLE_FORMAT_PTB64 (output_format self) n bits
          = batch_write_bit_calls SAMPLE_FORMAT_PTB64 (output_format self) n
              bits') as ->; [|reflexivity].
  destruct (decide (output_format self = SAMPLE_FORMAT_PTB64)) as [->|Hne].
  - rewrite !batch_write_bit_ptb64_calls.
    pose proof (f_equal length Hsame) as Hlen. rewrite !length_take in Hlen.
    destruct (decide (8 * n <= length bits)) as [Hin|Hout].
    + rewrite decide_True by lia. f_equal.
      rewrite !fan_out_singleton.
      apply list.Forall_fmap_ext_1, list.Forall_forall. intros k Hk.
      apply elem_of_seq in Hk. do 2 f_equal.
      rewrite <- (slice_take bits (8 * n)), <- (slice_take bits' (8 * n))
        by lia.
      rewrite Hsame. reflexivity.
    + rewrite decide_False by lia. reflexivity.
  - unfold batch_write_bit_calls. rewrite !decide_False by exact Hne.
    unfold batch_write_bit_serial. apply for_loop_ext.
    intros k Hk. rewrite Hsame by lia. reflexivity.
Qed.

Lemma batch_write_bit_ignores_padding_witness :
  batch_write_bit TRANSPOSED_PACKED_64
    (construct (W := unit) [] [tt] TRANSPOSED_PACKED_64) example_row
  = batch_write_bit TRANSPOSED_PACKED_64
      (construct (W := unit) [] [tt] TRANSPOSED_PACKED_64) (take 8 example_row).
Proof.
  refine (batch_write_bit_ignores_padding TRANSPOSED_PACKED_64
            (construct (W := unit) [] [tt] TRANSPOSED_PACKED_64)
            example_row (take 8 example_row) _).
  vm_compute. reflexivity.
Defined.
